(** * IWR1443 data collection: the serial reactor and the radar frame decoder

    A shallow embedding of the C++ sources under [UART/]:
    - [IWR1443/Data.h], [IWR1443/Serials.cpp] : module [Data]
    - [Log.h] / [Log.cpp]            : module [Log]
    - [Serial.h] / [Serial.cpp]      : module [Serial]
    - [IOContext.h] / [IOContext.cpp]: module [IOContext]

    Conventions.  Unsigned machine integers are [Z] with the wrap-around
    written out where the source can wrap.  [size_t] and [ULONG_PTR] are the
    64-bit types of the Win64 target.  Memory is a [list byte]; a read that
    is not entirely inside the list is undefined behaviour in C++ and is
    [None] here.  Operating-system calls are modelled by the values they
    return (given as inputs) and by the actions the program performs on
    them (collected in traces). *)

From Stdlib Require Import ZArith List String Ascii Lia Bool DecimalString.
From Stdlib Require Import Strings.Byte.
Import ListNotations.
Open Scope Z_scope.

(** ** The undefined-behaviour monad *)

Definition bind {A B : Type} (m : option A) (f : A -> option B) : option B :=
  match m with
  | Some a => f a
  | None => None
  end.

Notation "x <- m ;; k" := (bind m (fun x => k))
  (at level 61, m at next level, right associativity).
Notation "' pat <- m ;; k" := (bind m (fun x => match x with pat => k end))
  (at level 61, pat pattern, m at next level, right associativity).

(** ** Text produced by [std::format] *)

(** The double-quote character. *)
Definition dq : string := String (ascii_of_nat 34) EmptyString.

(** [q s] is [s] between double quotes. *)
Definition q (s : string) : string := (dq ++ s ++ dq)%string.

(** [std::format("{}", n)] for an integer [n]. *)
Definition format_int (n : Z) : string := NilZero.string_of_int (Z.to_int n).

(** An object literal [{"k1": v1, "k2": v2, ...}], the shape of every
    struct formatter of [Data.h]. *)
Definition json_obj (fields : list (string * string)) : string :=
  ("{" ++ String.concat ", " (map (fun kv => q (fst kv) ++ ": " ++ snd kv) fields) ++ "}")%string.

(** An array literal [[v1, v2, ...]]. *)
Definition json_arr (items : list string) : string :=
  ("[" ++ String.concat ", " items ++ "]")%string.

(** ** Memory *)

Definition size (mem : list byte) : Z := Z.of_nat (List.length mem).

(** The [n] bytes at offset [off], when they all lie inside [mem]. *)
Definition slice (mem : list byte) (off n : Z) : option (list byte) :=
  if (0 <=? off) && (0 <=? n) && (off + n <=? size mem)
  then Some (firstn (Z.to_nat n) (skipn (Z.to_nat off) mem))
  else None.

(** Little-endian value of a byte sequence. *)
Fixpoint le_value (bs : list byte) : Z :=
  match bs with
  | [] => 0
  | b :: bs' => Z.of_N (Byte.to_N b) + 256 * le_value bs'
  end.

(** An unsigned little-endian field of [w] bytes at [off]. *)
Definition read_uint (w : Z) (mem : list byte) (off : Z) : option Z :=
  bs <- slice mem off w ;; Some (le_value bs).

Definition read_u8 := read_uint 1.
Definition read_u16 := read_uint 2.
Definition read_u32 := read_uint 4.

(** Two's complement reading of a [w]-byte unsigned value. *)
Definition to_signed (w : Z) (v : Z) : Z :=
  if v <? 2 ^ (8 * w - 1) then v else v - 2 ^ (8 * w).

Definition read_i8 (mem : list byte) (off : Z) : option Z :=
  v <- read_u8 mem off ;; Some (to_signed 1 v).
Definition read_i16 (mem : list byte) (off : Z) : option Z :=
  v <- read_u16 mem off ;; Some (to_signed 2 v).

(** [count] consecutive fields of [w] bytes starting at [off]. *)
Fixpoint read_uints (w : Z) (count : nat) (mem : list byte) (off : Z) : option (list Z) :=
  match count with
  | O => Some []
  | S c =>
      v <- read_uint w mem off ;;
      vs <- read_uints w c mem (off + w) ;;
      Some (v :: vs)
  end.

(** ** [IWR1443/Data.h]: wire structures and their formatters *)

Module Data.

(** [sizeof] of the structures, as laid out by the compiler (all fields
    are naturally aligned, so there is no padding). *)
Definition sizeof_FrameHeader : Z := 36.
Definition sizeof_TLVHeader : Z := 8.
Definition sizeof_DetectedPoint : Z := 16.
Definition sizeof_Q9Real : Z := 2.
Definition sizeof_Statistics : Z := 24.
Definition sizeof_DetectedPointSideInfo : Z := 4.
Definition sizeof_TemperatureStatistics : Z := 28.
Definition sizeof_SphericalCoordinate : Z := 16.
Definition sizeof_Tracked3DTarget : Z := 84.
Definition sizeof_SphericalCompressedPointCloudHeader : Z := 20.
Definition sizeof_SphericalCompressedPoint : Z := 8.

(** Width of [size_t]. *)
Definition SIZE_BITS : Z := 64.
Definition size_t (v : Z) : Z := v mod 2 ^ SIZE_BITS.

Record FrameHeader := mkFrameHeader {
  version : Z;
  packetLength : Z;
  platform : Z;
  frameNumber : Z;
  time : Z;
  detectedObjectCount : Z;
  tlvCount : Z
}.

Inductive TLVType :=
| DetectedPoints
| RangeProfile
| NoiseFloorProfile
| AzimuthStaticHeatmap
| RangeDopplerHeatmap
| Statistics
| DetectedPointsSideInfo
| AzimuthElevationStaticHeatmap
| TemperatureStatistics
| SphericalCoordinates
| TargetList
| TargetIndex
| SphericalCompressedPointCloud
| PresenceDetection
| OccupancyStateMachineOutput
| OtherType (code : Z).

(** The enumerators of [enum class TLVType : uint32_t]. *)
Definition TLVType_of_code (code : Z) : TLVType :=
  match code with
  | 1 => DetectedPoints
  | 2 => RangeProfile
  | 3 => NoiseFloorProfile
  | 4 => AzimuthStaticHeatmap
  | 5 => RangeDopplerHeatmap
  | 6 => Statistics
  | 7 => DetectedPointsSideInfo
  | 8 => AzimuthElevationStaticHeatmap
  | 9 => TemperatureStatistics
  | 1000 => SphericalCoordinates
  | 1010 => TargetList
  | 1011 => TargetIndex
  | 1020 => SphericalCompressedPointCloud
  | 1021 => PresenceDetection
  | 1030 => OccupancyStateMachineOutput
  | _ => OtherType code
  end.

(** [std::formatter<iwr1443::TLVType>]. *)
Definition format_TLVType (t : TLVType) : string :=
  match t with
  | DetectedPoints => "DetectedPoints"
  | RangeProfile => "RangeProfile"
  | NoiseFloorProfile => "NoiseFloorProfile"
  | AzimuthStaticHeatmap => "AzimuthStaticHeatmap"
  | RangeDopplerHeatmap => "RangeDopplerHeatmap"
  | Statistics => "Statistics"
  | DetectedPointsSideInfo => "DetectedPointsSideInfo"
  | AzimuthElevationStaticHeatmap => "AzimuthElevationStaticHeatmap"
  | TemperatureStatistics => "TemperatureStatistics"
  | SphericalCoordinates => "SphericalCoordinates"
  | TargetList => "TargetList"
  | TargetIndex => "TargetIndex"
  | SphericalCompressedPointCloud => "SphericalCompressedPointCloud"
  | PresenceDetection => "PresenceDetection"
  | OccupancyStateMachineOutput => "OccupancyStateMachineOutput"
  | OtherType _ => "Unknown"
  end.

(** The frame header found at offset [p]: [uint16_t magic[4]] followed by
    seven [uint32_t]. *)
Definition read_FrameHeader (mem : list byte) (p : Z) : option FrameHeader :=
  _magic <- slice mem p 8 ;;
  fs <- read_uints 4 7 mem (p + 8) ;;
  match fs with
  | [v; pl; pf; fn; t; doc; tc] => Some (mkFrameHeader v pl pf fn t doc tc)
  | _ => None
  end.

(** [std::formatter<iwr1443::FrameHeader>]. *)
Definition format_FrameHeader (h : FrameHeader) : string :=
  json_obj [("version", format_int (version h));
            ("packetLength", format_int (packetLength h));
            ("platform", format_int (platform h));
            ("frameNumber", format_int (frameNumber h));
            ("time", format_int (time h));
            ("detectedObjectCount", format_int (detectedObjectCount h));
            ("tlvCount", format_int (tlvCount h))]%string.

(** Pairs the field names of a struct with its formatted field values. *)
Definition format_struct (names : list string) (values : list string) : string :=
  json_obj (combine names values).

(** [std::formatter<iwr1443::Q9Real>]: bit 0 is [sign], bits 1..9 are
    [integer], bits 10..14 are [fraction]. *)
Definition format_Q9Real_value (v : Z) : string :=
  let sign := Z.land v 1 in
  let integer := Z.land (Z.shiftr v 1) 511 in
  let fraction := Z.land (Z.shiftr v 10) 31 in
  ((if (sign =? 0)%Z then "" else "-") ++ format_int integer ++ "." ++ format_int fraction)%string.

Section Formatters.

(** [std::format("{}", f)] for a [float], given by its 32-bit pattern.
    Floating-point printing is outside this development. *)
Variable format_float : Z -> string.

(** A struct of [n] floats at [p], formatted by [fmt]. *)
Definition format_floats (names : list string) (mem : list byte) (p : Z) : option string :=
  fs <- read_uints 4 (List.length names) mem p ;;
  Some (format_struct names (map format_float fs)).

(** [std::formatter<iwr1443::DetectedPoint>]. *)
Definition format_DetectedPoint : list byte -> Z -> option string :=
  format_floats ["x"; "y"; "z"; "doppler"]%string.

(** [std::formatter<iwr1443::SphericalCoordinate>]. *)
Definition format_SphericalCoordinate : list byte -> Z -> option string :=
  format_floats ["range"; "azimuth"; "elevation"; "doppler"]%string.

(** [std::formatter<iwr1443::SphericalCompressedPointCloudHeader>]. *)
Definition format_SphericalCompressedPointCloudHeader : list byte -> Z -> option string :=
  format_floats ["elevationUnit"; "azimuthUnit"; "dopplerUnit"; "rangeUnit"; "snrUnit"]%string.

(** [std::formatter<iwr1443::Tracked3DTarget>]: 21 floats. *)
Definition format_Tracked3DTarget (mem : list byte) (p : Z) : option string :=
  fs <- read_uints 4 21 mem p ;;
  match map format_float fs with
  | [tid; px; py; pz; vx; vy; vz; ax; ay; az;
     e00; e01; e02; e10; e11; e12; e20; e21; e22; g; c] =>
      let xyz x y z := format_struct ["x"; "y"; "z"]%string [x; y; z] in
      Some (json_obj
              [("trackID", tid);
               ("position", xyz px py pz);
               ("velocity", xyz vx vy vz);
               ("acceleration", xyz ax ay az);
               ("errorCovariance",
                 json_arr [json_arr [e00; e01; e02];
                           json_arr [e10; e11; e12];
                           json_arr [e20; e21; e22]]);
               ("gatingFunctionGain", g);
               ("confidenceLevel", c)]%string)
  | _ => None
  end.

End Formatters.

(** [std::formatter<iwr1443::Q9Real>] applied to the value at [p]. *)
Definition format_Q9Real (mem : list byte) (p : Z) : option string :=
  v <- read_u16 mem p ;; Some (format_Q9Real_value v).

(** [std::formatter<iwr1443::Statistics>]. *)
Definition format_Statistics (mem : list byte) (p : Z) : option string :=
  fs <- read_uints 4 6 mem p ;;
  Some (format_struct
          ["interFrameProcessingTime"; "transmitOutputTime";
           "interFrameProcessingMargin"; "interChirpProcessingMargin";
           "activeFrameCPULoad"; "interFrameCPULoad"]%string
          (map format_int fs)).

(** [std::formatter<iwr1443::DetectedPointSideInfo>]. *)
Definition format_DetectedPointSideInfo (mem : list byte) (p : Z) : option string :=
  fs <- read_uints 2 2 mem p ;;
  Some (format_struct ["snr"; "noise"]%string (map format_int fs)).

(** [std::formatter<iwr1443::TemperatureStatistics>]. *)
Definition format_TemperatureStatistics (mem : list byte) (p : Z) : option string :=
  ws <- read_uints 4 2 mem p ;;
  hs <- read_uints 2 10 mem (p + 8) ;;
  Some (format_struct
          ["tempReportValid"; "time"; "tmpRx0Sens"; "tmpRx1Sens"; "tmpRx2Sens";
           "tmpRx3Sens"; "tmpTx0Sens"; "tmpTx1Sens"; "tmpTx2Sens"; "tmpPmSens";
           "tmpDig0Sens"; "tmpDig1Sens"]%string
          (map format_int (ws ++ hs))).

(** [std::formatter<iwr1443::SphericalCompressedPoint>]. *)
Definition format_SphericalCompressedPoint (mem : list byte) (p : Z) : option string :=
  elevation <- read_i8 mem p ;;
  azimuth <- read_i8 mem (p + 1) ;;
  doppler <- read_i16 mem (p + 2) ;;
  range <- read_u16 mem (p + 4) ;;
  snr <- read_u16 mem (p + 6) ;;
  Some (format_struct ["elevation"; "azimuth"; "doppler"; "range"; "snr"]%string
          (map format_int [elevation; azimuth; doppler; range; snr])).

(** [std::format("{}", values[i])] for a [uint8_t]. *)
Definition format_uint8 (mem : list byte) (p : Z) : option string :=
  v <- read_u8 mem p ;; Some (format_int v).

(** ** [IWR1443/Serials.cpp]: the TLV and frame decoder *)

(** The loop
    [for (size_t i = 0; i < count; ++i) { if (i != 0) ctx += ", "; ctx += format(values[i]); }]
    with [n] iterations left. *)
Fixpoint format_items (n : nat) (i : Z) (item : Z -> option string) (ctx : string)
  : option string :=
  match n with
  | O => Some ctx
  | S n' =>
      let ctx := if i =? 0 then ctx else (ctx ++ ", ")%string in
      s <- item i ;;
      format_items n' (i + 1) item (ctx ++ s)%string
  end.

Definition format_array (count : Z) (item : Z -> option string) (ctx : string)
  : option string :=
  format_items (Z.to_nat count) 0 item ctx.

(** [pointCount] of the [SphericalCompressedPointCloud] case: the
    subtraction is done in [size_t]. *)
Definition pointCount (length : Z) : Z :=
  size_t (length - sizeof_SphericalCompressedPointCloudHeader)
  / sizeof_SphericalCompressedPoint.

Section Decoder.

Variable format_float : Z -> string.

(** The cases of [HandleTLV] that print ["Data": [e0, e1, ...]] for an
    array of [count] elements of [esz] bytes at [data]. *)
Definition data_array (mem : list byte) (data count esz : Z)
    (fmt : list byte -> Z -> option string) (ctx : string) : option string :=
  ctx <- format_array count (fun i => fmt mem (data + i * esz))
           (ctx ++ q "Data" ++ ": [")%string ;;
  Some (ctx ++ "]")%string.

(** The [switch (tlvHeader->type)] of [HandleTLV]: the payload of a TLV
    of [length] bytes at [data]. *)
Definition HandleTLV_switch (mem : list byte) (type : TLVType) (data length : Z)
    (ctx : string) : option string :=
  match type with
  | DetectedPoints =>
      data_array mem data (length / sizeof_DetectedPoint) sizeof_DetectedPoint
        (format_DetectedPoint format_float) ctx
  | RangeProfile =>
      data_array mem data (length / sizeof_Q9Real) sizeof_Q9Real format_Q9Real ctx
  | Statistics =>
      s <- format_Statistics mem data ;;
      Some (ctx ++ q "Data" ++ ": " ++ s)%string
  | DetectedPointsSideInfo =>
      data_array mem data (length / sizeof_DetectedPointSideInfo)
        sizeof_DetectedPointSideInfo format_DetectedPointSideInfo ctx
  | TemperatureStatistics =>
      s <- format_TemperatureStatistics mem data ;;
      Some (ctx ++ q "Data" ++ ": " ++ s)%string
  | SphericalCoordinates =>
      data_array mem data (length / sizeof_SphericalCoordinate)
        sizeof_SphericalCoordinate (format_SphericalCoordinate format_float) ctx
  | TargetList =>
      data_array mem data (length / sizeof_Tracked3DTarget) sizeof_Tracked3DTarget
        (format_Tracked3DTarget format_float) ctx
  | TargetIndex =>
      data_array mem data length 1 format_uint8 ctx
  | SphericalCompressedPointCloud =>
      h <- format_SphericalCompressedPointCloudHeader format_float mem data ;;
      let ctx := (ctx ++ q "Data" ++ ": {" ++ q "Header" ++ ": " ++ h ++ ", ")%string in
      let points := data + sizeof_SphericalCompressedPointCloudHeader in
      ctx <- format_array (pointCount length)
               (fun i => format_SphericalCompressedPoint mem
                           (points + i * sizeof_SphericalCompressedPoint))
               (ctx ++ q "Points" ++ ": [")%string ;;
      Some (ctx ++ "]}")%string
  | _ => Some ctx
  end.

(** [HandleTLV(ctx, tlv)]: appends the rendering of the TLV at offset
    [tlv] to [ctx] and returns the number of bytes to advance. *)
Definition HandleTLV (mem : list byte) (tlv : Z) (ctx : string) : option (string * Z) :=
  code <- read_u32 mem tlv ;;
  length <- read_u32 mem (tlv + 4) ;;
  let type := TLVType_of_code code in
  let data := tlv + sizeof_TLVHeader in
  let ctx := (ctx ++ "{" ++ q "Type" ++ ": " ++ q (format_TLVType type) ++ ", ")%string in
  ctx <- HandleTLV_switch mem type data length ctx ;;
  Some ((ctx ++ "}")%string, length + sizeof_TLVHeader).

(** The loop of [HandleFrame] over the TLVs, with [n] iterations left;
    returns the text and the final position of [iter]. *)
Fixpoint HandleTLVs (n : nat) (i : Z) (mem : list byte) (iter : Z) (ctx : string)
  : option (string * Z) :=
  match n with
  | O => Some (ctx, iter)
  | S n' =>
      let ctx := if i =? 0 then ctx else (ctx ++ ", ")%string in
      '(ctx, adv) <- HandleTLV mem iter ctx ;;
      HandleTLVs n' (i + 1) mem (iter + adv) ctx
  end.

(** The text [HandleFrame(frame)] hands to [Persistant], together with
    the final position of [iter]; [frame] is offset 0 of [mem]. *)
Definition HandleFrame_walk (mem : list byte) : option (string * Z) :=
  frameHeader <- read_FrameHeader mem 0 ;;
  let ctx := ("{" ++ q "Header" ++ ": " ++ format_FrameHeader frameHeader
                  ++ ", " ++ q "TLVs" ++ ": [")%string in
  '(ctx, iter) <- HandleTLVs (Z.to_nat (tlvCount frameHeader)) 0 mem sizeof_FrameHeader ctx ;;
  Some ((ctx ++ "]}, ")%string, iter).

Definition HandleFrame (mem : list byte) : option string :=
  '(ctx, _) <- HandleFrame_walk mem ;; Some ctx.

(** ** [IWR1443/Serials.cpp]: the resynchronising framer *)

(** [magic[4] = {0x0102, 0x0304, 0x0506, 0x0708}] as it lies in memory. *)
Definition magic : list byte := [x02; x01; x04; x03; x06; x05; x08; x07].

(** [memcmp(a, b, n) == 0]. *)
Fixpoint memcmp_eq (n : nat) (a b : list byte) : bool :=
  match n with
  | O => true
  | S n' =>
      match a, b with
      | x :: a', y :: b' => Byte.eqb x y && memcmp_eq n' a' b'
      | _, _ => false
      end
  end.

(** The loop of [LocateFrameHeader]: [s] is the memory from [searchStart]
    on, [pos] the offset of [searchStart], [n] the distance to
    [searchEnd]. *)
Fixpoint LocateFrameHeader_loop (n : nat) (pos : nat) (s : list byte) : option nat :=
  match n with
  | O => None
  | S n' =>
      if memcmp_eq 8 s magic then Some pos
      else LocateFrameHeader_loop n' (S pos) (tl s)
  end.

(** [LocateFrameHeader(start, size)]; the caller guarantees
    [size >= sizeof(FrameHeader)]. *)
Definition LocateFrameHeader (start : list byte) : option nat :=
  LocateFrameHeader_loop (List.length start - Z.to_nat sizeof_FrameHeader + 1) 0 start.

(** The state of a [DataSerial]: the accumulator, and the texts handed
    to [Persistant] so far. *)
Record DataSerial := mkDataSerial {
  buffer : list byte;
  persisted : list string
}.

Definition DataSerial_new : DataSerial := mkDataSerial [] [].

(** [DataSerial::OnRead(data, size)]. *)
Definition OnRead (ds : DataSerial) (data : list byte) : option DataSerial :=
  let buffer := (buffer ds ++ data)%list in
  if size buffer <? sizeof_FrameHeader then Some (mkDataSerial buffer (persisted ds))
  else
    match LocateFrameHeader buffer with
    | None => Some (mkDataSerial [] (persisted ds))
    | Some frameStart =>
        let buffer := skipn frameStart buffer in
        frameHeader <- read_FrameHeader buffer 0 ;;
        if size buffer <? packetLength frameHeader
        then Some (mkDataSerial buffer (persisted ds))
        else
          ctx <- HandleFrame buffer ;;
          Some (mkDataSerial [] (persisted ds ++ [ctx]))
    end.

(** Successive [OnRead] calls, one per chunk. *)
Fixpoint OnReads (ds : DataSerial) (chunks : list (list byte)) : option DataSerial :=
  match chunks with
  | [] => Some ds
  | data :: rest => ds' <- OnRead ds data ;; OnReads ds' rest
  end.

End Decoder.

End Data.

(** ** [Log.h], [Log.cpp]: the leveled log *)

Module Log.

Inductive LogLevel := Trace | Debug | Info | Warning | Error | Off.

(** The enumerator values of [enum class LogLevel]. *)
Definition level_value (l : LogLevel) : Z :=
  match l with
  | Trace => 0
  | Debug => 1
  | Info => 2
  | Warning => 3
  | Error => 4
  | Off => 5
  end.

Definition BUFFER_SIZE : Z := 4096.
Definition FLUSH_SIZE : Z := BUFFER_SIZE - 256.

Definition LogLevelName (level : LogLevel) : string :=
  match level with
  | Trace => "Trace"
  | Debug => "Debug"
  | Info => "Info"
  | Warning => "Warning"
  | Error => "Error"
  | _ => "WTF"
  end.

(** Where flushed text goes: [writer->Write] when a writer is set,
    [WriteFile(GetStdHandle(STD_ERROR_HANDLE), ...)] otherwise. *)
Inductive sink := PersistantWriter | StdErr.

Record LogSystem := mkLogSystem {
  filterLevel : LogLevel;
  buffer : string;
  writer : bool;
  written : list (sink * string)
}.

Definition newline : string := String (ascii_of_nat 10) EmptyString.

(** [std::format("{} {} [{}] {}\n", threadID, now, LogLevelName(severity), message)];
    the thread id and the printed clock value come from the environment. *)
Definition format_line (threadID : Z) (now : string) (severity : LogLevel) (message : string)
  : string :=
  (format_int threadID ++ " " ++ now ++ " [" ++ LogLevelName severity ++ "] "
     ++ message ++ newline)%string.

Definition buffer_size (b : string) : Z := Z.of_nat (String.length b).

(** [LogSystem::LogMessage(severity, message)]. *)
Definition LogMessage (threadID : Z) (now : string) (ls : LogSystem)
    (severity : LogLevel) (message : string) : LogSystem :=
  if level_value severity <? level_value (filterLevel ls) then ls
  else
    let buffer := (buffer ls ++ format_line threadID now severity message)%string in
    let '(flushBuffer, buffer) :=
      if (FLUSH_SIZE <=? buffer_size buffer) || (level_value Error <=? level_value severity)
      then (buffer, EmptyString)   (* flushBuffer.swap(buffer) *)
      else (EmptyString, buffer) in
    let written :=
      if buffer_size flushBuffer =? 0 then written ls
      else (written ls ++ [(if writer ls then PersistantWriter else StdErr, flushBuffer)])%list in
    mkLogSystem (filterLevel ls) buffer (writer ls) written.

(** A call of one of the global helpers [LogInfo], [LogWarning],
    [LogError]: the level, the format string, and the arguments. *)
Inductive log_arg :=
| ArgString (s : string)
| ArgInt (n : Z)
| ArgErrorMessage (code : Z).   (* [errorCode.message()] *)

Record log_call := mkLogCall {
  call_level : LogLevel;
  call_format : string;
  call_args : list log_arg
}.

(** [LogSystem::Flush()]: the buffer is swapped out and written, empty
    or not. *)
Definition Flush (ls : LogSystem) : LogSystem :=
  mkLogSystem (filterLevel ls) EmptyString (writer ls)
    (written ls ++ [(if writer ls then PersistantWriter else StdErr, buffer ls)])%list.

(** [LogSystem::~LogSystem()]: the residue is written, then
    [buffer.clear()]. *)
Definition Destroy (ls : LogSystem) : LogSystem :=
  mkLogSystem (filterLevel ls) EmptyString (writer ls)
    (written ls ++ [(if writer ls then PersistantWriter else StdErr, buffer ls)])%list.

(** [LogSystem::SetLevel(level)] and [LogSystem::GetLevel()]. *)
Definition SetLevel (ls : LogSystem) (level : LogLevel) : LogSystem :=
  mkLogSystem level (buffer ls) (writer ls) (written ls).

Definition GetLevel (ls : LogSystem) : LogLevel := filterLevel ls.

(** [LogSystem::SetPersistantWriter<T>(args...)]. *)
Definition SetPersistantWriter (ls : LogSystem) : LogSystem :=
  mkLogSystem (filterLevel ls) (buffer ls) true (written ls).

(** The templated helpers [Trace], [Debug], [Info], [Warning], [Error]
    of [Log.h], for the helper of level [level]:
    [if (filterLevel > level) return; LogMessage(level, std::format(...))]. *)
Definition LogFormatted (threadID : Z) (now : string) (ls : LogSystem)
    (level : LogLevel) (message : string) : LogSystem :=
  if level_value (filterLevel ls) >? level_value level then ls
  else LogMessage threadID now ls level message.

(** The operations a program performs on the log; the thread id and the
    clock of each message come with it. *)
Inductive log_op :=
| OpLogMessage (threadID : Z) (now : string) (severity : LogLevel) (message : string)
| OpFlush
| OpSetLevel (level : LogLevel).

Definition apply_op (ls : LogSystem) (op : log_op) : LogSystem :=
  match op with
  | OpLogMessage threadID now severity message => LogMessage threadID now ls severity message
  | OpFlush => Flush ls
  | OpSetLevel level => SetLevel ls level
  end.

Definition run_ops (ls : LogSystem) (ops : list log_op) : LogSystem :=
  fold_left apply_op ops ls.

End Log.

(** ** [Serial.h], [Serial.cpp]: the serial endpoint *)

Module Serial.

Import Log.

Definition ERROR_IO_PENDING : Z := 997.
Definition READ_BUFFER_SIZE : Z := 4096.

(** What an [OVERLAPPED *] handed back by the completion port points to. *)
Inductive overlapped := OverlappedRead | OverlappedWrite | OverlappedOther.

(** The observable actions of an endpoint: operating-system calls, calls
    of the overridable handlers, and log calls. *)
Inductive action :=
| ActCreateFileA (name : string)
| ActSetupComm
| ActSetCommState (baudRate : Z)
| ActPurgeComm
| ActCreateEvents
| ActCloseHandle
| ActResetEvent
| ActClearCommError
| ActReadFile (readSize : Z)
| ActWriteFile (data : list byte)
| ActOnRead (data : list byte) (size : Z)
| ActOnWriteComplete
| ActLog (c : log_call).

Record Serial := mkSerial {
  fileHandle : option Z;          (* [None] is [INVALID_HANDLE_VALUE] *)
  port : string;
  readBuffer : list byte;
  bytesRead : Z;
  dataToWrite : list (list byte)
}.

(** [Serial::Serial()]. *)
Definition Serial_new : Serial := mkSerial None EmptyString [] 0 [].

(** [char] is signed on the target. *)
Definition char_value (c : ascii) : Z :=
  let n := Z.of_nat (nat_of_ascii c) in if n <? 128 then n else n - 256.

Definition starts_with (prefix s : string) : bool := String.prefix prefix s.

(** The value of [port] after the block commented [// Config port name.] *)
Definition config_port (port portName : string) : string :=
  if starts_with "COM" portName && (4 <=? Z.of_nat (String.length portName))
  then
    match String.get 3 portName with
    | Some c =>
        if (char_value "8"%char <=? char_value c) || (4 <? Z.of_nat (String.length portName))
        then ("\\.\" ++ portName)%string
        else portName
    | None => port
    end
  else port.

(** The answers of the operating system during [Initialize]. *)
Record InitOS := mkInitOS {
  CreateFileA_result : option Z;   (* the handle, or [None] for failure *)
  SetCommState_ok : bool;
  Init_LastError : Z
}.

Definition error_log (fmt : string) (args : list log_arg) : action :=
  ActLog (mkLogCall Error fmt args).

(** [Serial::Initialize(portName, baudRate)]: the new state, the actions
    and the value of the returned [std::error_code]. *)
Definition Initialize (s : Serial) (portName : string) (baudRate : Z) (os : InitOS)
  : Serial * list action * Z :=
  match fileHandle s with
  | Some _ =>
      (s, [ActLog (mkLogCall Warning
                     "Serial {} is already initialized. Duplicate initialization is ignored."
                     [ArgString (port s)])], 0)
  | None =>
      let port := config_port (port s) portName in
      let s := mkSerial None port (readBuffer s) (bytesRead s) (dataToWrite s) in
      match CreateFileA_result os with
      | None =>
          (s, [ActCreateFileA port;
               error_log "Failed to connect to serial port {}: {}."
                 [ArgString port; ArgInt (Init_LastError os)]],
           Init_LastError os)
      | Some h =>
          if SetCommState_ok os
          then (mkSerial (Some h) port (readBuffer s) (bytesRead s) (dataToWrite s),
                [ActCreateFileA port; ActSetupComm; ActSetCommState baudRate;
                 ActPurgeComm; ActCreateEvents], 0)
          else (s, [ActCreateFileA port; ActSetupComm; ActSetCommState baudRate;
                    error_log "Failed to set comm state for serial {}: {}."
                      [ArgString port; ArgInt (Init_LastError os)];
                    ActCloseHandle],
                Init_LastError os)
      end
  end.

(** The answers of the operating system during [AsyncRead]:
    [ClearCommError] and its [cbInQue], [ReadFile], the value it stores
    through [lpNumberOfBytesRead], the contents it leaves in [readBuffer],
    and [GetLastError()] after a failure. *)
Record ReadOS := mkReadOS {
  ClearCommError_ok : bool;
  cbInQue : Z;
  ReadFile_ok : bool;
  ReadFile_bytesRead : Z;
  ReadFile_data : list byte;
  Read_LastError : Z
}.

(** The answers of the operating system during [WriteNextBuffer]. *)
Record WriteOS := mkWriteOS {
  WriteFile_ok : bool;
  Write_LastError : Z
}.

(** [Serial::AsyncRead()]. *)
Definition AsyncRead (s : Serial) (os : ReadOS) : Serial * list action * Z :=
  if negb (ClearCommError_ok os)
  then (s, [ActResetEvent; ActClearCommError;
            error_log "Failed to clear comm error for serial {}: {}."
              [ArgString (port s); ArgInt (Read_LastError os)]],
        Read_LastError os)
  else
    let readSize := if cbInQue os <? READ_BUFFER_SIZE then cbInQue os else READ_BUFFER_SIZE in
    let s' := mkSerial (fileHandle s) (port s) (ReadFile_data os) (ReadFile_bytesRead os)
                (dataToWrite s) in
    if negb (ReadFile_ok os)
    then (s', [ActResetEvent; ActClearCommError; ActReadFile readSize;
               error_log "Failed to start overlapped read task for serial {}: {}."
                 [ArgString (port s); ArgInt (Read_LastError os)]],
          Read_LastError os)
    else (s', [ActResetEvent; ActClearCommError; ActReadFile readSize], 0).

(** [Serial::WriteNextBuffer()]; called with a non-empty queue only. *)
Definition WriteNextBuffer (s : Serial) (os : WriteOS) : list action * Z :=
  let data := hd [] (dataToWrite s) in
  if negb (WriteFile_ok os) && negb (Write_LastError os =? ERROR_IO_PENDING)
  then ([ActWriteFile data;
         error_log "Failed to write data to serial {}: {}."
           [ArgString (port s); ArgInt (Write_LastError os)]],
        Write_LastError os)
  else ([ActWriteFile data], 0).

(** [Serial::AsyncWrite(data, size)]. *)
Definition AsyncWrite (s : Serial) (data : list byte) (os : WriteOS) : Serial * list action :=
  let s := mkSerial (fileHandle s) (port s) (readBuffer s) (bytesRead s)
             (dataToWrite s ++ [data]) in
  if Z.of_nat (List.length (dataToWrite s)) =? 1
  then
    let '(acts, errorCode) := WriteNextBuffer s os in
    if errorCode =? 0 then (s, acts)
    else (s, acts ++ [error_log "Failed to write next buffer to serial {}: {}."
                        [ArgString (port s); ArgErrorMessage errorCode]])
  else (s, []).

(** [Serial::OnIOComplete(bytesTransferred, overlapped)].  The handlers
    [OnRead] and [OnWriteComplete] are virtual: their calls are recorded.
    [pop()] on an empty queue is undefined. *)
Definition OnIOComplete (s : Serial) (bytesTransferred : Z) (ov : overlapped)
    (ros : ReadOS) (wos : WriteOS) : option (Serial * list action) :=
  match ov with
  | OverlappedRead =>
      let info :=
        if bytesTransferred =? bytesRead s then []
        else [ActLog (mkLogCall Info
                "IO complete port transferred bytes {} is different from overlapped IO bytes {}."
                [ArgInt bytesTransferred; ArgInt (bytesRead s)])] in
      let onread :=
        if bytesRead s =? 0 then [] else [ActOnRead (readBuffer s) (bytesRead s)] in
      let '(s', acts, errorCode) := AsyncRead s ros in
      let failed :=
        if errorCode =? 0 then []
        else [error_log "Failed to start async read task for serial {}: {}."
                [ArgString (port s); ArgErrorMessage errorCode]] in
      Some (s', info ++ onread ++ acts ++ failed)
  | OverlappedWrite =>
      match dataToWrite s with
      | [] => None
      | _ :: rest =>
          let s' := mkSerial (fileHandle s) (port s) (readBuffer s) (bytesRead s) rest in
          match rest with
          | [] => Some (s', [ActOnWriteComplete])
          | _ :: _ =>
              let '(acts, errorCode) := WriteNextBuffer s' wos in
              let failed :=
                if errorCode =? 0 then []
                else [error_log "Failed to write next buffer to serial {}: {}."
                        [ArgString (port s); ArgErrorMessage errorCode]] in
              Some (s', ActOnWriteComplete :: acts ++ failed)
          end
      end
  | OverlappedOther =>
      Some (s, [ActLog (mkLogCall Warning "{}: Unknown overlapped object received. Ignored."
                          [ArgString (port s)])])
  end.

(** *** The endpoint together with the operating system's write side *)

(** The write buffers the operating system accepted, in order, and the
    number of accepted writes whose completion has not been delivered. *)
Record system := mkSystem {
  endpoint : Serial;
  wire : list (list byte);
  inflight : Z
}.

Definition system_new : system := mkSystem Serial_new [] 0.

Inductive event :=
| CallAsyncWrite (data : list byte) (os : WriteOS)
| WriteCompletion (bytesTransferred : Z) (os : WriteOS).

(** The operating system takes the buffer of a [WriteFile] call that
    returns success or [ERROR_IO_PENDING]. *)
Definition accepts (os : WriteOS) : bool :=
  WriteFile_ok os || (Write_LastError os =? ERROR_IO_PENDING).

(** The buffers of the [WriteFile] calls among [acts]. *)
Definition submitted (acts : list action) : list (list byte) :=
  flat_map (fun a => match a with ActWriteFile d => [d] | _ => [] end) acts.

Definition account (st : system) (s' : Serial) (acts : list action) (os : WriteOS)
    (completed : Z) : system :=
  let sub := if accepts os then submitted acts else [] in
  mkSystem s' (wire st ++ sub) (inflight st - completed + Z.of_nat (List.length sub)).

(** One event of the endpoint's life: a call of [AsyncWrite], or the
    reactor delivering a write completion. *)
Definition exec (st : system) (e : event) : option system :=
  match e with
  | CallAsyncWrite data os =>
      let '(s', acts) := AsyncWrite (endpoint st) data os in
      Some (account st s' acts os 0)
  | WriteCompletion bytesTransferred os =>
      '(s', acts) <- OnIOComplete (endpoint st) bytesTransferred OverlappedWrite
                       (mkReadOS true 0 true 0 [] 0) os ;;
      Some (account st s' acts os 1)
  end.

(** What the operating system can do: it accepts every write here, and
    it reports a completion only for a write in flight. *)
Definition enabled (st : system) (e : event) : Prop :=
  match e with
  | CallAsyncWrite _ os => accepts os = true
  | WriteCompletion _ os => accepts os = true /\ 0 < inflight st
  end.

Inductive steps : system -> list event -> system -> Prop :=
| steps_nil st : steps st [] st
| steps_cons st e st' evs st'' :
    enabled st e -> exec st e = Some st' -> steps st' evs st'' ->
    steps st (e :: evs) st''.

(** The buffers passed to [AsyncWrite], in call order. *)
Definition written_buffers (evs : list event) : list (list byte) :=
  flat_map (fun e => match e with CallAsyncWrite d _ => [d] | _ => [] end) evs.

(** [Serial::OnRegister()]: starts the first read; the error code of
    [AsyncRead] is dropped. *)
Definition OnRegister (s : Serial) (os : ReadOS) : Serial * list action :=
  fst (AsyncRead s os).

(** [Serial::GetHandle()]. *)
Definition GetHandle (s : Serial) : option Z := fileHandle s.

(** Successive [AsyncWrite] calls with no completion in between, each
    with the answer the operating system would give to its [WriteFile]. *)
Fixpoint AsyncWrites (s : Serial) (calls : list (list byte * WriteOS))
  : Serial * list action :=
  match calls with
  | [] => (s, [])
  | (data, os) :: rest =>
      let '(s1, acts1) := AsyncWrite s data os in
      let '(s2, acts2) := AsyncWrites s1 rest in
      (s2, acts1 ++ acts2)
  end.

End Serial.

(** ** [IOContext.h], [IOContext.cpp]: the reactor *)

Module IOContext.

Definition ULONG_PTR_BITS : Z := 64.

(** [std::numeric_limits<ULONG_PTR>::max()]. *)
Definition ULONG_PTR_MAX : Z := 2 ^ ULONG_PTR_BITS - 1.
Definition QUIT_HANDLE : Z := ULONG_PTR_MAX.

(** A completion packet; [overlapped] is a pointer, 0 being [nullptr]. *)
Record completion := mkCompletion {
  bytesTransferred : Z;
  completeKey : Z;
  overlapped : Z
}.

(** The completion port: packets in the order they will be dequeued. *)
Definition port := list completion.

(** [IOContext::Quit()]: [PostQueuedCompletionStatus(port, 0, QUIT_HANDLE, nullptr)]. *)
Definition Quit (p : port) : port := p ++ [mkCompletion 0 QUIT_HANDLE 0].

(** One return of [GetQueuedCompletionStatus]. *)
Inductive dequeue :=
| Dequeued (c : completion)
| DequeueFailed (errorCode : Z).

Inductive action :=
| ActOnIOComplete (connection : Z) (bytesTransferred : Z) (overlapped : Z)
| ActLogError (errorCode : Z).

(** [Run] either returns an error code, or is still blocked in
    [GetQueuedCompletionStatus] (the timeout is [INFINITE]). *)
Inductive outcome := Returned (errorCode : Z) | Blocked.

(** [IOContext::Run()] against the successive answers of
    [GetQueuedCompletionStatus]. *)
Fixpoint Run (answers : list dequeue) : list action * outcome :=
  match answers with
  | [] => ([], Blocked)
  | DequeueFailed errorCode :: _ => ([ActLogError errorCode], Returned errorCode)
  | Dequeued c :: rest =>
      if completeKey c =? QUIT_HANDLE then ([], Returned 0)
      else
        let '(acts, out) := Run rest in
        (ActOnIOComplete (completeKey c) (bytesTransferred c) (overlapped c) :: acts, out)
  end.

(** The reactor: [ioCompletePort], [None] being [nullptr]. *)
Record IOContext := mkIOContext {
  ioCompletePort : option Z
}.

(** [IOContext::IOContext()]. *)
Definition IOContext_new : IOContext := mkIOContext None.

Inductive context_action :=
| ActCreateIoCompletionPort
| ActAssociate (handle : option Z) (existingPort : option Z) (key : Z)
| ActOnRegister (connection : Z)
| ActLogWarning
| ActLogFailure (errorCode : Z).

(** [IOContext::Initialize()], given the handle [CreateIoCompletionPort]
    returns ([None] for [nullptr]) and [GetLastError()]. *)
Definition Initialize (c : IOContext) (created : option Z) (lastError : Z)
  : IOContext * list context_action * Z :=
  match ioCompletePort c with
  | Some _ => (c, [ActLogWarning], 0)
  | None =>
      match created with
      | None => (mkIOContext None, [ActCreateIoCompletionPort; ActLogFailure lastError], lastError)
      | Some p => (mkIOContext (Some p), [ActCreateIoCompletionPort], 0)
      end
  end.

Definition handle_eqb (a b : option Z) : bool :=
  match a, b with
  | None, None => true
  | Some x, Some y => x =? y
  | _, _ => false
  end.

(** [IOContext::Register(connection)]: [handle] is
    [connection->GetHandle()], [result] what [CreateIoCompletionPort]
    returns for the association, the completion key is the address of the
    connection. *)
Definition Register (c : IOContext) (connection : Z) (handle : option Z)
    (result : option Z) (lastError : Z) : list context_action * Z :=
  if negb (handle_eqb result (ioCompletePort c))
  then ([ActAssociate handle (ioCompletePort c) connection; ActLogFailure lastError], lastError)
  else ([ActAssociate handle (ioCompletePort c) connection; ActOnRegister connection], 0).

End IOContext.

(** ** The driver's [FileWriter] *)

Module FileWriter.

(** The observable actions of a [FileWriter]. *)
Inductive action :=
| ActCreateFile (path : string)
| ActCloseHandle (handle : Z)
| ActWriteFile (handle : option Z) (data : list byte).

(** The answers of the operating system during [Open]: the count
    [MultiByteToWideChar] returns, the handle [CreateFile] returns
    ([None] for [INVALID_HANDLE_VALUE]) and [GetLastError()]. *)
Record OpenOS := mkOpenOS {
  wide_count : Z;
  CreateFile_result : option Z;
  Open_LastError : Z
}.

(** [FileWriter::FileWriter()]: [fileHandle] is [INVALID_HANDLE_VALUE]. *)
Definition FileWriter_new : option Z := None.

(** [FileWriter::Open(path)] on a writer whose handle is [fileHandle]:
    the new handle, the actions and the value of the returned error
    code. *)
Definition Open (fileHandle : option Z) (path : string) (os : OpenOS)
  : option Z * list action * Z :=
  if wide_count os <=? 0 then (fileHandle, [], Open_LastError os)
  else
    match CreateFile_result os with
    | None => (fileHandle, [ActCreateFile path], Open_LastError os)
    | Some newFile =>
        (Some newFile,
         ActCreateFile path
           :: match fileHandle with
              | Some old => [ActCloseHandle old]
              | None => []
              end,
         0)
    end.

(** [FileWriter::Write(data, size)], given the result of [WriteFile]. *)
Definition Write (fileHandle : option Z) (data : list byte) (ok : bool) (lastError : Z)
  : list action * Z :=
  ([ActWriteFile fileHandle data], if ok then 0 else lastError).

(** [FileWriter::~FileWriter()]. *)
Definition Destroy (fileHandle : option Z) : option Z * list action :=
  match fileHandle with
  | Some h => (None, [ActCloseHandle h])
  | None => (None, [])
  end.

(** Successive [Open] calls. *)
Fixpoint Opens (fileHandle : option Z) (calls : list (string * OpenOS))
  : option Z * list action :=
  match calls with
  | [] => (fileHandle, [])
  | (path, os) :: rest =>
      let '(h1, acts1, _) := Open fileHandle path os in
      let '(h2, acts2) := Opens h1 rest in
      (h2, acts1 ++ acts2)
  end.

End FileWriter.

(** ** Vocabulary of the properties *)

Module Props.

Import Data.

(** A printer for [float] used where a concrete one is needed: it prints
    the bit pattern as an integer.  No frame of the scenarios below
    contains a [float]. *)
Definition bits_format_float (bits : Z) : string := format_int bits.

(** Scenario S1: one frame with a single [Statistics] TLV holding
    10, 20, 30, 40, 50, 60; the parameter is the low byte of the
    [packetLength] field. *)
Definition S1_frame (packetLength : byte) : list byte :=
  [x02; x01; x04; x03; x06; x05; x08; x07;
   x03; x00; x00; x00;   packetLength; x00; x00; x00;
   x16; x00; x00; x00;   x01; x00; x00; x00;
   xe8; x03; x00; x00;   x00; x00; x00; x00;
   x01; x00; x00; x00;
   x06; x00; x00; x00;   x18; x00; x00; x00;
   x0a; x00; x00; x00;   x14; x00; x00; x00;   x1e; x00; x00; x00;
   x28; x00; x00; x00;   x32; x00; x00; x00;   x3c; x00; x00; x00].

(** S1 as the scenario gives it, [packetLength = 52], and the same frame
    with [packetLength] equal to its 68 bytes. *)
Definition S1 : list byte := S1_frame x34.
Definition S1_exact : list byte := S1_frame x44.

(** The text of the [Statistics] payload of S1. *)
Definition S1_statistics : string :=
  json_obj [("interFrameProcessingTime", "10"); ("transmitOutputTime", "20");
            ("interFrameProcessingMargin", "30"); ("interChirpProcessingMargin", "40");
            ("activeFrameCPULoad", "50"); ("interFrameCPULoad", "60")]%string.

(** The record printed for [S1_frame] with [packetLength = pl]. *)
Definition S1_json (pl : Z) : string :=
  ("{" ++ q "Header" ++ ": "
     ++ format_FrameHeader (mkFrameHeader 3 pl 22 1 1000 0 1)
     ++ ", " ++ q "TLVs" ++ ": [{" ++ q "Type" ++ ": " ++ q "Statistics" ++ ", "
     ++ q "Data" ++ ": " ++ S1_statistics ++ "}]}, ")%string.


(** The magic occurs at offset [p] of [s]. *)
Definition magic_at (s : list byte) (p : nat) : Prop := firstn 8 (skipn p s) = magic.


Section Frames.

Variable format_float : Z -> string.



(** The array-typed TLVs of [HandleTLV] whose element count is
    [length / sizeof(element)], with the size and the formatter of the
    element. *)
Definition array_element (t : TLVType) : option (Z * (list byte -> Z -> option string)) :=
  match t with
  | DetectedPoints => Some (sizeof_DetectedPoint, format_DetectedPoint format_float)
  | RangeProfile => Some (sizeof_Q9Real, format_Q9Real)
  | DetectedPointsSideInfo => Some (sizeof_DetectedPointSideInfo, format_DetectedPointSideInfo)
  | SphericalCoordinates => Some (sizeof_SphericalCoordinate, format_SphericalCoordinate format_float)
  | TargetList => Some (sizeof_Tracked3DTarget, format_Tracked3DTarget format_float)
  | _ => None
  end.

(** The texts of the [n] TLV records found by walking from [iter], each
    rendered on its own. *)
Fixpoint tlv_records (n : nat) (mem : list byte) (iter : Z) : option (list string) :=
  match n with
  | O => Some []
  | S n' =>
      '(r, adv) <- HandleTLV format_float mem iter "" ;;
      rest <- tlv_records n' mem (iter + adv) ;;
      Some (r :: rest)
  end.

End Frames.

(** A reader is stable when bytes appended to the memory do not change a
    result it already has. *)
Definition stable {A : Type} (f : list byte -> Z -> option A) : Prop :=
  forall mem ext p r, f mem p = Some r -> f (mem ++ ext) p = Some r.

(** The texts of the [n] elements [item i], [item (i + 1)], ... in order. *)
Fixpoint elements (n : nat) (i : Z) (item : Z -> option string) : option (list string) :=
  match n with
  | O => Some []
  | S n' =>
      s <- item i ;;
      rest <- elements n' (i + 1) item ;;
      Some (s :: rest)
  end.

(** The opening [{"Type": "<name>", ] of a TLV record. *)
Definition tlv_open (t : TLVType) : string :=
  ("{" ++ q "Type" ++ ": " ++ q (format_TLVType t) ++ ", ")%string.




(** The invariant of the write side: the accepted buffers followed by
    the queue behind its head are the buffers passed to [AsyncWrite] so
    far, and a write is in flight exactly when the queue is not empty. *)
Definition write_invariant (st : Serial.system) (all : list (list byte)) : Prop :=
  (Serial.wire st ++ tl (Serial.dataToWrite (Serial.endpoint st)))%list = all /\
  Serial.inflight st
  = match Serial.dataToWrite (Serial.endpoint st) with [] => 0 | _ :: _ => 1 end.

(** The names handed to [CreateFileA]. *)
Definition opened_names (acts : list Serial.action) : list string :=
  flat_map (fun a => match a with Serial.ActCreateFileA n => [n] | _ => [] end) acts.

(** The connections whose [OnIOComplete] the reactor called. *)
Definition dispatched_keys (acts : list IOContext.action) : list Z :=
  flat_map (fun a => match a with IOContext.ActOnIOComplete k _ _ => [k] | _ => [] end) acts.

(** The TLV types for which [HandleTLV] prints no ["Data"]: the six
    named ones without a case of their own, and every unknown code. *)
Definition undecoded (t : Data.TLVType) : bool :=
  match t with
  | NoiseFloorProfile | AzimuthStaticHeatmap | RangeDopplerHeatmap
  | AzimuthElevationStaticHeatmap | PresenceDetection | OccupancyStateMachineOutput
  | OtherType _ => true
  | _ => false
  end.

(** The TLV types decoded as one struct, with the size of the struct. *)
Definition fixed_payload (t : Data.TLVType) : option Z :=
  match t with
  | Statistics => Some sizeof_Statistics
  | TemperatureStatistics => Some sizeof_TemperatureStatistics
  | _ => None
  end.

(** All the text a log has taken: what was written, then the buffer. *)
Definition log_text (ls : Log.LogSystem) : string :=
  (String.concat "" (map snd (Log.written ls)) ++ Log.buffer ls)%string.

(** The lines of the messages that pass the filter in force when they
    are logged, [filter] being the filter before [ops]. *)
Fixpoint accepted_text (filter : Log.LogLevel) (ops : list Log.log_op) : string :=
  match ops with
  | [] => EmptyString
  | Log.OpLogMessage threadID now severity message :: rest =>
      ((if (Log.level_value severity <? Log.level_value filter)%Z then EmptyString
        else Log.format_line threadID now severity message)
       ++ accepted_text filter rest)%string
  | Log.OpFlush :: rest => accepted_text filter rest
  | Log.OpSetLevel level :: rest => accepted_text level rest
  end.

(** The handles [CreateFile] returned, and the handles closed. *)
Definition created_handles (calls : list (string * FileWriter.OpenOS)) : list Z :=
  flat_map (fun c =>
              if FileWriter.wide_count (snd c) <=? 0 then []
              else match FileWriter.CreateFile_result (snd c) with
                   | Some h => [h]
                   | None => []
                   end) calls.

Definition closed_handles (acts : list FileWriter.action) : list Z :=
  flat_map (fun a => match a with FileWriter.ActCloseHandle h => [h] | _ => [] end) acts.

Definition handle_list (h : option Z) : list Z :=
  match h with Some x => [x] | None => [] end.

(** The sizes of the [ReadFile] calls among the actions of an endpoint. *)
Definition read_sizes (acts : list Serial.action) : list Z :=
  flat_map (fun a => match a with Serial.ActReadFile n => [n] | _ => [] end) acts.

(** The log calls among the actions of an endpoint. *)
Definition log_calls (acts : list Serial.action) : list Log.log_call :=
  flat_map (fun a => match a with Serial.ActLog c => [c] | _ => [] end) acts.

(** The completion packets at the head of [answers], up to the first
    failure or sentinel. *)
Fixpoint dispatchable (answers : list IOContext.dequeue) : list IOContext.completion :=
  match answers with
  | IOContext.Dequeued c :: rest =>
      if IOContext.completeKey c =? IOContext.QUIT_HANDLE then []
      else c :: dispatchable rest
  | _ => []
  end.

End Props.

(** * Properties *)

(** ** Strings and memory *)

Lemma string_app_assoc (a b c : string) : ((a ++ b) ++ c = a ++ (b ++ c))%string.
Proof. induction a as [|ch a IH]; simpl; [reflexivity | now rewrite IH]. Qed.

Lemma string_app_nil_r (a : string) : (a ++ "" = a)%string.
Proof. induction a as [|ch a IH]; simpl; [reflexivity | now rewrite IH]. Qed.

Lemma Some_inj {A : Type} (a b : A) : Some a = Some b -> a = b.
Proof. now intros [= ->]. Qed.

Lemma bind_Some {A B : Type} (m : option A) (f : A -> option B) (b : B) :
  bind m f = Some b -> exists a, m = Some a /\ f a = Some b.
Proof. destruct m as [a|]; simpl; [eauto | discriminate]. Qed.

(** Splits a hypothesis [x <- m ;; k = Some r] into its two steps. *)
Ltac unbind H :=
  let a := fresh "v" in
  let E := fresh "E" in
  apply bind_Some in H; destruct H as (a & E & H).

Lemma size_app (a b : list byte) : size (a ++ b) = size a + size b.
Proof. unfold size. rewrite length_app. lia. Qed.

Lemma size_nonneg (a : list byte) : 0 <= size a.
Proof. unfold size. lia. Qed.

Lemma slice_Some (mem : list byte) (off n : Z) (bs : list byte) :
  slice mem off n = Some bs ->
  0 <= off /\ 0 <= n /\ off + n <= size mem /\
  bs = firstn (Z.to_nat n) (skipn (Z.to_nat off) mem).
Proof.
  unfold slice. destruct (0 <=? off) eqn:E1; simpl; [|discriminate].
  destruct (0 <=? n) eqn:E2; simpl; [|discriminate].
  destruct (off + n <=? size mem) eqn:E3; [|discriminate].
  intros [= <-]. repeat split; lia.
Qed.

Lemma slice_in_bounds (mem : list byte) (off n : Z) :
  0 <= off -> 0 <= n -> off + n <= size mem ->
  slice mem off n = Some (firstn (Z.to_nat n) (skipn (Z.to_nat off) mem)).
Proof.
  intros H1 H2 H3. unfold slice.
  apply Z.leb_le in H1, H2, H3. now rewrite H1, H2, H3.
Qed.

(** Bytes appended after the ones a read touches do not change it. *)
Lemma slice_app (mem ext : list byte) (off n : Z) (bs : list byte) :
  slice mem off n = Some bs -> slice (mem ++ ext) off n = Some bs.
Proof.
  intros H. apply slice_Some in H. destruct H as (H1 & H2 & H3 & ->).
  rewrite slice_in_bounds by (rewrite ?size_app; pose proof (size_nonneg ext); lia).
  f_equal. unfold size in H3.
  rewrite skipn_app, firstn_app, length_skipn.
  replace (Z.to_nat off - List.length mem)%nat with 0%nat by lia.
  replace (Z.to_nat n - (List.length mem - Z.to_nat off))%nat with 0%nat by lia.
  simpl. now rewrite app_nil_r.
Qed.

Lemma read_uint_app (w : Z) (mem ext : list byte) (off v : Z) :
  read_uint w mem off = Some v -> read_uint w (mem ++ ext) off = Some v.
Proof.
  unfold read_uint. intros H. unbind H.
  now rewrite (slice_app _ ext _ _ _ E).
Qed.

Lemma read_uints_app (w : Z) (count : nat) (mem ext : list byte) (off : Z) (vs : list Z) :
  read_uints w count mem off = Some vs -> read_uints w count (mem ++ ext) off = Some vs.
Proof.
  revert off vs. induction count as [|c IH]; intros off vs H; simpl in *; [exact H|].
  unbind H. unbind H.
  rewrite (read_uint_app _ _ ext _ _ E), (IH _ _ E0). exact H.
Qed.

Lemma read_uint_in_bounds (w : Z) (mem : list byte) (off : Z) :
  0 <= off -> 0 <= w -> off + w <= size mem -> exists v, read_uint w mem off = Some v.
Proof.
  intros. unfold read_uint. rewrite slice_in_bounds by lia. simpl. eauto.
Qed.

Lemma read_uints_in_bounds (w : Z) (count : nat) (mem : list byte) (off : Z) :
  0 <= off -> 0 <= w -> off + Z.of_nat count * w <= size mem ->
  exists vs, read_uints w count mem off = Some vs /\ List.length vs = count.
Proof.
  revert off. induction count as [|c IH]; intros off H1 H2 H3; simpl.
  - exists []. split; reflexivity.
  - destruct (read_uint_in_bounds w mem off) as [v Hv]; [lia | lia | nia |].
    destruct (IH (off + w)) as (vs & Hvs & Hlen); [lia | lia | nia |].
    rewrite Hv, Hvs. simpl. exists (v :: vs). split; [reflexivity | simpl; now rewrite Hlen].
Qed.

(** ** The decoder only depends on the bytes it reads *)

Section DecoderStability.

Import Data Props.

Variable format_float : Z -> string.

Lemma stable_read_uint (w : Z) : stable (read_uint w).
Proof. intros mem ext p r. apply read_uint_app. Qed.

Lemma stable_read_uints (w : Z) (count : nat) : stable (read_uints w count).
Proof. intros mem ext p r. apply read_uints_app. Qed.

(** Solves stability of a reader built from binds of stable reads. *)
Ltac stable_step H ext :=
  match type of H with
  | bind _ _ = Some _ =>
      let v := fresh "v" in let E := fresh "E" in
      apply bind_Some in H; destruct H as (v & E & H);
      first [ rewrite (read_uint_app _ _ ext _ _ E)
            | rewrite (read_uints_app _ _ _ ext _ _ E)
            | rewrite (slice_app _ ext _ _ _ E) ];
      cbn [bind]
  end.

Ltac stable_steps H ext := repeat stable_step H ext; exact H.

Lemma stable_format_floats (names : list string) : stable (format_floats format_float names).
Proof. intros mem ext p r H. unfold format_floats in *. stable_steps H ext. Qed.

Lemma stable_format_Tracked3DTarget : stable (format_Tracked3DTarget format_float).
Proof. intros mem ext p r H. unfold format_Tracked3DTarget in *. stable_steps H ext. Qed.

Lemma stable_format_Q9Real : stable format_Q9Real.
Proof. intros mem ext p r H. unfold format_Q9Real, read_u16 in *. stable_steps H ext. Qed.

Lemma stable_format_Statistics : stable format_Statistics.
Proof. intros mem ext p r H. unfold format_Statistics in *. stable_steps H ext. Qed.

Lemma stable_format_DetectedPointSideInfo : stable format_DetectedPointSideInfo.
Proof. intros mem ext p r H. unfold format_DetectedPointSideInfo in *. stable_steps H ext. Qed.

Lemma stable_format_TemperatureStatistics : stable format_TemperatureStatistics.
Proof. intros mem ext p r H. unfold format_TemperatureStatistics in *. stable_steps H ext. Qed.

Lemma stable_format_uint8 : stable format_uint8.
Proof. intros mem ext p r H. unfold format_uint8, read_u8 in *. stable_steps H ext. Qed.

Lemma stable_format_SphericalCompressedPoint : stable format_SphericalCompressedPoint.
Proof.
  intros mem ext p r H.
  unfold format_SphericalCompressedPoint, read_i8, read_i16, read_u8, read_u16 in *.
  repeat (let v := fresh "v" in let E := fresh "E" in
          apply bind_Some in H; destruct H as (v & E & H);
          try (apply bind_Some in E; destruct E as (? & E & [= <-]);
               rewrite (read_uint_app _ _ ext _ _ E); cbn [bind]);
          try (rewrite (read_uint_app _ _ ext _ _ E); cbn [bind])).
  exact H.
Qed.


Lemma format_items_ext (n : nat) (i : Z) (item item' : Z -> option string) (ctx r : string) :
  (forall j s, item j = Some s -> item' j = Some s) ->
  format_items n i item ctx = Some r -> format_items n i item' ctx = Some r.
Proof.
  intros Hitem. revert i ctx. induction n as [|n IH]; intros i ctx H; simpl in *; [exact H|].
  unbind H. rewrite (Hitem _ _ E). simpl. now apply IH.
Qed.

Lemma data_array_app (fmt : list byte -> Z -> option string) (mem ext : list byte)
    (data count esz : Z) (ctx r : string) :
  stable fmt ->
  data_array mem data count esz fmt ctx = Some r ->
  data_array (mem ++ ext) data count esz fmt ctx = Some r.
Proof.
  intros Hfmt H. unfold data_array, format_array in *. unbind H.
  rewrite (format_items_ext _ _ _ (fun i => fmt (mem ++ ext) (data + i * esz)) _ _
             (fun j s => Hfmt mem ext _ s) E).
  exact H.
Qed.

Lemma HandleTLV_switch_app (mem ext : list byte) (type : TLVType) (data length : Z)
    (ctx r : string) :
  HandleTLV_switch format_float mem type data length ctx = Some r ->
  HandleTLV_switch format_float (mem ++ ext) type data length ctx = Some r.
Proof.
  destruct type; cbn [HandleTLV_switch]; intros H;
    try (apply data_array_app; [|exact H]);
    try assumption.
  - apply stable_format_floats.
  - apply stable_format_Q9Real.
  - unbind H. now rewrite (stable_format_Statistics _ ext _ _ E).
  - apply stable_format_DetectedPointSideInfo.
  - unbind H. now rewrite (stable_format_TemperatureStatistics _ ext _ _ E).
  - apply stable_format_floats.
  - apply stable_format_Tracked3DTarget.
  - apply stable_format_uint8.
  - unbind H. unfold format_SphericalCompressedPointCloudHeader in *.
    rewrite (stable_format_floats _ _ ext _ _ E). cbn [bind].
    unbind H. unfold format_array in *.
    rewrite (format_items_ext _ _ _
               (fun i => format_SphericalCompressedPoint (mem ++ ext)
                           (data + sizeof_SphericalCompressedPointCloudHeader
                            + i * sizeof_SphericalCompressedPoint)) _ _
               (fun j s => stable_format_SphericalCompressedPoint mem ext _ s) E0).
    exact H.
Qed.

Lemma HandleTLV_app (mem ext : list byte) (tlv : Z) (ctx : string) (r : string * Z) :
  HandleTLV format_float mem tlv ctx = Some r ->
  HandleTLV format_float (mem ++ ext) tlv ctx = Some r.
Proof.
  intros H. unfold HandleTLV in *.
  unbind H. unbind H. unfold read_u32 in *.
  rewrite (read_uint_app _ _ ext _ _ E), (read_uint_app _ _ ext _ _ E0). cbn [bind].
  unbind H. rewrite (HandleTLV_switch_app _ ext _ _ _ _ _ E1). exact H.
Qed.




End DecoderStability.

(** ** Locating the frame header *)

Section Locate.

Import Data Props.

Lemma memcmp_eq_iff (n : nat) (a b : list byte) :
  List.length b = n -> (memcmp_eq n a b = true <-> firstn n a = b).
Proof.
  revert a b. induction n as [|n IH]; intros a b Hb.
  - destruct b; [|discriminate]. simpl. tauto.
  - destruct b as [|y b]; [discriminate|]. injection Hb as Hb.
    destruct a as [|x a]; simpl.
    + split; discriminate.
    + rewrite andb_true_iff, (IH a b Hb). split.
      * intros [Hxy <-]. apply Byte.byte_dec_bl in Hxy. now subst.
      * intros [= -> <-]. split; [now apply Byte.byte_dec_lb | reflexivity].
Qed.

Lemma memcmp_magic (s : list byte) : memcmp_eq 8 s magic = true <-> magic_at s 0.
Proof. unfold magic_at. simpl skipn. now apply memcmp_eq_iff. Qed.

Lemma magic_at_tl (s : list byte) (p : nat) : magic_at (tl s) p <-> magic_at s (S p).
Proof. unfold magic_at. destruct s as [|a s]; simpl; [|tauto]. now destruct p. Qed.








End Locate.

(** ** The framer *)

Section Framer.

Import Data Props.

Variable format_float : Z -> string.

Lemma read_uints_Some_bound (w : Z) (count : nat) (mem : list byte) (off : Z) (vs : list Z) :
  0 <= w -> read_uints w count mem off = Some vs ->
  count <> 0%nat -> off + Z.of_nat count * w <= size mem.
Proof.
  intros Hw. revert off vs. induction count as [|c IH]; intros off vs H Hc; [congruence|].
  simpl in H. unbind H. unbind H.
  unfold read_uint in E. unbind E. apply slice_Some in E1.
  destruct c as [|c].
  - lia.
  - specialize (IH _ _ E0 ltac:(discriminate)). nia.
Qed.

Lemma read_FrameHeader_Some_size (mem : list byte) (h : FrameHeader) :
  read_FrameHeader mem 0 = Some h -> sizeof_FrameHeader <= size mem.
Proof.
  unfold read_FrameHeader. intros H. unbind H. unbind H.
  apply read_uints_Some_bound in E0; [|lia|discriminate].
  unfold sizeof_FrameHeader. lia.
Qed.










End Framer.

(** ** Claims on the data-port framer and the frame decoder *)

Section FramerClaims.

Import Data Props.

Variable format_float : Z -> string.







End FramerClaims.






(** ** Claims on the array-typed TLVs *)

Section ArrayClaims.

Import Data Props.

Variable format_float : Z -> string.

Lemma concat_empty_cons (a : string) (l : list string) :
  String.concat "" (a :: l) = (a ++ String.concat "" l)%string.
Proof. destruct l; cbn [String.concat]; [now rewrite string_app_nil_r | reflexivity]. Qed.

Lemma concat_sep_cons (sep a : string) (l : list string) :
  String.concat sep (a :: l)
  = (a ++ String.concat "" (map (String.append sep) l))%string.
Proof.
  revert a. induction l as [|b l IH]; intros a.
  - cbn. now rewrite string_app_nil_r.
  - change (String.concat sep (a :: b :: l)) with (a ++ sep ++ String.concat sep (b :: l))%string.
    rewrite IH. cbn [map]. rewrite concat_empty_cons, string_app_assoc. reflexivity.
Qed.

Lemma elements_length (n : nat) (i : Z) (item : Z -> option string) (items : list string) :
  elements n i item = Some items -> List.length items = n.
Proof.
  revert i items. induction n as [|n IH]; intros i items H; cbn [elements] in H.
  - now injection H as <-.
  - unbind H. unbind H. injection H as <-. cbn. f_equal. exact (IH _ _ E0).
Qed.

Lemma elements_defined (n : nat) (i : Z) (item : Z -> option string) :
  (forall j, i <= j < i + Z.of_nat n -> exists s, item j = Some s) ->
  exists items, elements n i item = Some items.
Proof.
  revert i. induction n as [|n IH]; intros i H; cbn [elements]; [eauto|].
  destruct (H i ltac:(lia)) as [s ->]. cbn [bind].
  destruct (IH (i + 1)) as [rest ->]; [intros j Hj; apply H; lia|].
  cbn [bind]. eauto.
Qed.

(** After the first element every element is preceded by [", "]. *)
Lemma format_items_rest (n : nat) (i : Z) (item : Z -> option string) (ctx : string)
    (items : list string) :
  0 < i -> elements n i item = Some items ->
  format_items n i item ctx
  = Some (ctx ++ String.concat "" (map (String.append ", ") items))%string.
Proof.
  revert i ctx items. induction n as [|n IH]; intros i ctx items Hi H; cbn [elements] in H.
  - injection H as <-. cbn. now rewrite string_app_nil_r.
  - unbind H. unbind H. injection H as <-.
    cbn [format_items]. rewrite E. cbn [bind].
    replace (i =? 0) with false by (symmetry; apply Z.eqb_neq; lia).
    rewrite (IH (i + 1) _ v0) by (try lia; exact E0).
    cbn [map]. rewrite concat_empty_cons. f_equal.
    now rewrite !string_app_assoc.
Qed.

(** The loop over an array prints its elements separated by [", "]. *)
Lemma format_array_elements (count : Z) (item : Z -> option string) (ctx : string)
    (items : list string) :
  elements (Z.to_nat count) 0 item = Some items ->
  format_array count item ctx = Some (ctx ++ String.concat ", " items)%string.
Proof.
  unfold format_array. destruct (Z.to_nat count) as [|n]; cbn [elements]; intros H.
  - injection H as <-. cbn. now rewrite string_app_nil_r.
  - unbind H. unbind H. injection H as <-.
    cbn [format_items]. rewrite E. cbn [bind Z.eqb].
    rewrite (format_items_rest n (0 + 1) item _ v0) by (try lia; exact E0).
    rewrite concat_sep_cons. f_equal. now rewrite !string_app_assoc.
Qed.

Lemma format_floats_defined (names : list string) (mem : list byte) (p : Z) :
  0 <= p -> p + Z.of_nat (List.length names) * 4 <= size mem ->
  exists s, format_floats format_float names mem p = Some s.
Proof.
  intros H1 H2. unfold format_floats.
  destruct (read_uints_in_bounds 4 (List.length names) mem p) as (vs & -> & _); [lia..|].
  cbn [bind]. eauto.
Qed.

(** Every array element formatter is defined on an element that lies
    inside the memory. *)
Lemma array_element_defined (t : TLVType) (esz : Z) (fmt : list byte -> Z -> option string) :
  array_element format_float t = Some (esz, fmt) ->
  0 < esz /\
  forall mem p, 0 <= p -> p + esz <= size mem -> exists s, fmt mem p = Some s.
Proof.
  destruct t; cbn [array_element]; intros [= <- <-]; (split; [reflexivity|]);
    intros mem p H1 H2.
  - apply format_floats_defined; [lia | exact H2].
  - unfold format_Q9Real, read_u16.
    destruct (read_uint_in_bounds 2 mem p) as [v ->]; [lia | lia | exact H2 |].
    cbn [bind]. eauto.
  - unfold format_DetectedPointSideInfo.
    destruct (read_uints_in_bounds 2 2 mem p) as (vs & -> & _); [lia | lia | exact H2 |].
    cbn [bind]. eauto.
  - apply format_floats_defined; [lia | exact H2].
  - unfold format_Tracked3DTarget.
    destruct (read_uints_in_bounds 4 21 mem p) as (vs & -> & Hlen); [lia | lia | exact H2 |].
    cbn [bind].
    do 22 (destruct vs as [|? vs]; try discriminate Hlen). cbn [map]. eauto.
Qed.

Lemma HandleTLV_switch_array (t : TLVType) (esz : Z) (fmt : list byte -> Z -> option string)
    (mem : list byte) (data length : Z) (ctx : string) :
  array_element format_float t = Some (esz, fmt) ->
  HandleTLV_switch format_float mem t data length ctx
  = data_array mem data (length / esz) esz fmt ctx.
Proof. destruct t; cbn [array_element]; intros [= <- <-]; reflexivity. Qed.

(** An array-typed TLV whose [length / esz] whole elements lie in the
    memory is rendered with exactly that many elements. *)
Lemma HandleTLV_array (esz : Z) (fmt : list byte -> Z -> option string)
    (mem : list byte) (tlv code length : Z) (ctx : string) :
  array_element format_float (TLVType_of_code code) = Some (esz, fmt) ->
  0 <= tlv ->
  read_u32 mem tlv = Some code -> read_u32 mem (tlv + 4) = Some length ->
  tlv + sizeof_TLVHeader + (length / esz) * esz <= size mem ->
  exists items,
    elements (Z.to_nat (length / esz)) 0
      (fun i => fmt mem (tlv + sizeof_TLVHeader + i * esz)) = Some items /\
    HandleTLV format_float mem tlv ctx
    = Some ((ctx ++ tlv_open (TLVType_of_code code) ++ q "Data" ++ ": "
                 ++ json_arr items ++ "}")%string,
            length + sizeof_TLVHeader).
Proof.
  intros Harr Htlv Hcode Hlen Hbound.
  destruct (array_element_defined _ _ _ Harr) as [Hesz Hdef].
  destruct (elements_defined (Z.to_nat (length / esz)) 0
              (fun i => fmt mem (tlv + sizeof_TLVHeader + i * esz))) as [items Hitems].
  { intros j Hj. apply Hdef; unfold sizeof_TLVHeader in *; nia. }
  exists items. split; [exact Hitems|].
  unfold HandleTLV. rewrite Hcode, Hlen. cbn [bind].
  rewrite (HandleTLV_switch_array _ esz fmt) by exact Harr.
  unfold data_array. rewrite (format_array_elements _ _ _ items Hitems). cbn [bind].
  f_equal. f_equal. unfold tlv_open, json_arr.
  rewrite !string_app_assoc. reflexivity.
Qed.

(** C9.  For an array-typed TLV ([DetectedPoints], [RangeProfile],
    [DetectedPointsSideInfo], [SphericalCoordinates], [TargetList]) with
    element size [esz], the decoder prints exactly [length / esz] elements,
    the [i]-th being the element at [data + i * esz]; the remainder bytes
    after the last whole element are never read (cutting the memory after
    the last whole element changes nothing), and the traversal advances
    by [8 + length]. *)
Theorem array_tlv_element_count (esz : Z) (fmt : list byte -> Z -> option string)
    (mem : list byte) (tlv code length : Z) (ctx : string) :
  array_element format_float (TLVType_of_code code) = Some (esz, fmt) ->
  0 <= tlv ->
  read_u32 mem tlv = Some code -> read_u32 mem (tlv + 4) = Some length ->
  tlv + sizeof_TLVHeader + (length / esz) * esz <= size mem ->
  exists items,
    List.length items = Z.to_nat (length / esz) /\
    elements (Z.to_nat (length / esz)) 0
      (fun i => fmt mem (tlv + sizeof_TLVHeader + i * esz)) = Some items /\
    HandleTLV format_float mem tlv ctx
    = Some ((ctx ++ tlv_open (TLVType_of_code code) ++ q "Data" ++ ": "
                 ++ json_arr items ++ "}")%string,
            sizeof_TLVHeader + length) /\
    HandleTLV format_float
      (firstn (Z.to_nat (tlv + sizeof_TLVHeader + (length / esz) * esz)) mem) tlv ctx
    = HandleTLV format_float mem tlv ctx.
Proof.
  intros Harr Htlv Hcode Hlen Hbound.
  destruct (HandleTLV_array esz fmt mem tlv code length ctx Harr Htlv Hcode Hlen Hbound)
    as (items & Hitems & Hres).
  exists items. split; [exact (elements_length _ _ _ _ Hitems)|].
  split; [exact Hitems|].
  split; [rewrite Hres; do 2 f_equal; lia|].
  destruct (array_element_defined _ _ _ Harr) as [Hesz _].
  set (k := tlv + sizeof_TLVHeader + length / esz * esz) in *.
  assert (Hcount : 0 <= length / esz * esz).
  { unfold read_u32, read_uint in Hlen. unbind Hlen. injection Hlen as <-.
    assert (Hnn : forall bs, 0 <= le_value bs).
    { induction bs as [|b bs IHbs]; cbn [le_value]; lia. }
    specialize (Hnn v). apply Z.mul_nonneg_nonneg; [apply Z.div_pos|]; lia. }
  assert (Hsize : size (firstn (Z.to_nat k) mem) = k).
  { unfold size in *. rewrite length_firstn. unfold sizeof_TLVHeader in *. lia. }
  pose proof (firstn_skipn (Z.to_nat k) mem) as Hsplit.
  assert (Hread : forall off v, 0 <= off -> off + 4 <= k -> read_u32 mem off = Some v ->
                  read_u32 (firstn (Z.to_nat k) mem) off = Some v).
  { intros off v Hoff Hk Hv.
    destruct (read_uint_in_bounds 4 (firstn (Z.to_nat k) mem) off) as [v' Hv']; [lia..|].
    pose proof (read_uint_app 4 _ (skipn (Z.to_nat k) mem) _ _ Hv') as Hv''.
    rewrite Hsplit in Hv''. unfold read_u32 in *. congruence. }
  destruct (HandleTLV_array esz fmt (firstn (Z.to_nat k) mem) tlv code length ctx Harr Htlv)
    as (items' & _ & Hres').
  - apply Hread; [lia | unfold k, sizeof_TLVHeader; lia | exact Hcode].
  - apply Hread; [lia | unfold k, sizeof_TLVHeader; lia | exact Hlen].
  - rewrite Hsize. unfold k. lia.
  - rewrite Hres'.
    pose proof (HandleTLV_app format_float _ (skipn (Z.to_nat k) mem) _ _ _ Hres') as Hfull.
    rewrite Hsplit in Hfull. now rewrite Hfull.
Qed.

End ArrayClaims.

(** A [DetectedPointsSideInfo] TLV of 6 bytes: one element and two
    remainder bytes. *)
Lemma array_tlv_element_count_witness :
  let mem := [x07; x00; x00; x00;  x06; x00; x00; x00;  x05; x00; x07; x00;  xaa; xbb] in
  exists items,
    List.length items = Z.to_nat (6 / 4) /\
    Props.elements (Z.to_nat (6 / 4)) 0
      (fun i => Data.format_DetectedPointSideInfo mem (0 + Data.sizeof_TLVHeader + i * 4))
    = Some items /\
    Data.HandleTLV Props.bits_format_float mem 0 ""
    = Some (("" ++ Props.tlv_open (Data.TLVType_of_code 7) ++ q "Data" ++ ": "
                ++ json_arr items ++ "}")%string,
            Data.sizeof_TLVHeader + 6) /\
    Data.HandleTLV Props.bits_format_float
      (firstn (Z.to_nat (0 + Data.sizeof_TLVHeader + (6 / 4) * 4)) mem) 0 ""
    = Data.HandleTLV Props.bits_format_float mem 0 "".
Proof.
  intros mem.
  apply (array_tlv_element_count Props.bits_format_float 4 Data.format_DetectedPointSideInfo
           mem 0 7 6 "").
  - reflexivity.
  - lia.
  - reflexivity.
  - reflexivity.
  - vm_compute. discriminate.
Defined.

Section PointCloudClaims.

Import Data Props.

Variable format_float : Z -> string.

Lemma format_items_Some_elements (n : nat) (i : Z) (item : Z -> option string)
    (ctx r : string) :
  format_items n i item ctx = Some r -> exists items, elements n i item = Some items.
Proof.
  revert i ctx. induction n as [|n IH]; intros i ctx H; cbn [format_items elements] in *.
  - eauto.
  - unbind H. rewrite E. cbn [bind]. destruct (IH _ _ H) as [rest ->]. cbn [bind]. eauto.
Qed.

(** C10 (amended).  For a [SphericalCompressedPointCloud] TLV the point
    count is [(length - 20) / 8] computed in [size_t]: 20 is the size of
    the five-float header and 8 the size of a compressed point.  With
    [length >= 20] this is [(length - 20) / 8]; with [length < 20] the
    subtraction wraps and the count is [(2^64 + length - 20) / 8], above
    [2^60].  A TLV that is decoded prints its header and exactly that many
    points. *)
Theorem compressed_point_count (length : Z) :
  0 <= length < 2 ^ 32 ->
  (20 <= length -> pointCount length = (length - 20) / 8) /\
  (length < 20 ->
     pointCount length = (2 ^ 64 + length - 20) / 8 /\ 2 ^ 60 < pointCount length) /\
  (forall mem data ctx r,
     HandleTLV_switch format_float mem SphericalCompressedPointCloud data length ctx = Some r ->
     exists h items,
       format_SphericalCompressedPointCloudHeader format_float mem data = Some h /\
       elements (Z.to_nat (pointCount length)) 0
         (fun i => format_SphericalCompressedPoint mem
                     (data + sizeof_SphericalCompressedPointCloudHeader
                      + i * sizeof_SphericalCompressedPoint)) = Some items /\
       List.length items = Z.to_nat (pointCount length) /\
       r = (ctx ++ q "Data" ++ ": {" ++ q "Header" ++ ": " ++ h ++ ", "
                ++ q "Points" ++ ": " ++ json_arr items ++ "}")%string).
Proof.
  intros Hrange.
  unfold pointCount, size_t, SIZE_BITS, sizeof_SphericalCompressedPointCloudHeader,
    sizeof_SphericalCompressedPoint.
  split; [|split].
  - intros H. rewrite Z.mod_small by lia. reflexivity.
  - intros H.
    assert (Hwrap : (length - 20) mod 2 ^ 64 = 2 ^ 64 + length - 20).
    { symmetry. apply (Z.mod_unique _ _ (-1)); lia. }
    rewrite Hwrap. split; [reflexivity|].
    assert (Hlow : 2 ^ 60 + 1 <= (2 ^ 64 + length - 20) / 8)
      by (apply Z.div_le_lower_bound; lia).
    lia.
  - intros mem data ctx r H. unfold HandleTLV_switch in H.
    unbind H. unbind H.
    destruct (format_items_Some_elements _ _ _ _ _ E0) as [items Hitems].
    exists v, items. split; [exact E|]. split; [exact Hitems|].
    split; [exact (elements_length _ _ _ _ Hitems)|].
    rewrite (format_array_elements _ _ _ items Hitems) in E0.
    apply Some_inj in E0, H. subst v0 r.
    unfold json_arr. rewrite !string_app_assoc. reflexivity.
Qed.

End PointCloudClaims.

(** A point cloud TLV of [length = 4]: the count wraps. *)
Lemma compressed_point_count_witness :
  Data.pointCount 4 = (2 ^ 64 + 4 - 20) / 8 /\ 2 ^ 60 < Data.pointCount 4.
Proof.
  destruct (compressed_point_count Props.bits_format_float 4) as (_ & Hwrap & _).
  - lia.
  - apply Hwrap. lia.
Defined.

(** C10, counterexample.  With [length = 36] the decoder counts two
    points of 8 bytes, not [(36 - 20) / 10 = 1], and prints both. *)
Lemma compressed_point_count_counterexample :
  Data.pointCount 36 <> (36 - 20) / 10 /\
  (let mem := [xfc; x03; x00; x00;  x24; x00; x00; x00] ++ repeat x00 36 in
   let header := Data.format_struct
                   ["elevationUnit"; "azimuthUnit"; "dopplerUnit"; "rangeUnit"; "snrUnit"]%string
                   ["0"; "0"; "0"; "0"; "0"]%string in
   let point := Data.format_struct
                  ["elevation"; "azimuth"; "doppler"; "range"; "snr"]%string
                  ["0"; "0"; "0"; "0"; "0"]%string in
   Data.HandleTLV Props.bits_format_float mem 0 ""
   = Some ((Props.tlv_open Data.SphericalCompressedPointCloud ++ q "Data" ++ ": {"
              ++ q "Header" ++ ": " ++ header ++ ", " ++ q "Points" ++ ": "
              ++ json_arr [point; point] ++ "}" ++ "}")%string, 44)).
Proof.
  split; [vm_compute; discriminate | vm_compute; reflexivity].
Qed.

(** ** Claims on the log *)

Section LogClaims.

Import Log.

Lemma string_length_app (a b : string) :
  String.length (a ++ b) = (String.length a + String.length b)%nat.
Proof. induction a as [|c a IH]; cbn [String.append String.length]; [reflexivity | now rewrite IH]. Qed.

(** A formatted line ends with a newline, so a buffer it was appended to
    is never empty. *)
Lemma appended_line_nonempty (b : string) (threadID : Z) (now : string)
    (severity : LogLevel) (message : string) :
  0 < buffer_size (b ++ format_line threadID now severity message).
Proof.
  unfold buffer_size, format_line.
  rewrite !string_length_app. unfold newline. cbn [String.length]. lia.
Qed.

(** C8.  [LogMessage] does nothing for a severity strictly below the
    filter.  Otherwise the formatted line is appended to the buffer, and
    the buffer, line included, is swapped out and written (to the writer
    when one is set, to standard error otherwise) exactly when its size
    has reached [FLUSH_SIZE = 4096 - 256 = 3840] or the severity is
    [Error] or higher; in the other case nothing is written. *)
Theorem log_filter_and_flush (threadID : Z) (now : string) (ls : LogSystem)
    (severity : LogLevel) (message : string) :
  let line := format_line threadID now severity message in
  let ls' := LogMessage threadID now ls severity message in
  let appended := (buffer ls ++ line)%string in
  FLUSH_SIZE = 3840 /\
  (level_value severity < level_value (filterLevel ls) -> ls' = ls) /\
  (level_value (filterLevel ls) <= level_value severity ->
   filterLevel ls' = filterLevel ls /\ writer ls' = writer ls /\
   (FLUSH_SIZE <= buffer_size appended \/ level_value Error <= level_value severity ->
    buffer ls' = EmptyString /\
    written ls' = written ls ++ [(if writer ls then PersistantWriter else StdErr, appended)]) /\
   (~ (FLUSH_SIZE <= buffer_size appended \/ level_value Error <= level_value severity) ->
    buffer ls' = appended /\ written ls' = written ls)).
Proof.
  intros line ls' appended. split; [reflexivity|]. split.
  - intros Hlow. subst ls'. unfold LogMessage.
    apply Z.ltb_lt in Hlow. now rewrite Hlow.
  - intros Hpass. subst ls'. unfold LogMessage.
    apply Z.ltb_ge in Hpass. rewrite Hpass. fold line. fold appended.
    pose proof (appended_line_nonempty (buffer ls) threadID now severity message) as Hne.
    fold line in Hne. fold appended in Hne.
    destruct ((FLUSH_SIZE <=? buffer_size appended)
              || (level_value Error <=? level_value severity)) eqn:Hflush.
    + replace (buffer_size appended =? 0) with false by (symmetry; apply Z.eqb_neq; lia).
      cbn [filterLevel writer buffer written].
      split; [reflexivity|]. split; [reflexivity|]. split.
      * intros _. split; reflexivity.
      * intros Hno. exfalso. apply Hno.
        apply orb_true_iff in Hflush. rewrite !Z.leb_le in Hflush. exact Hflush.
    + cbn [buffer_size String.length Z.of_nat Z.eqb filterLevel writer buffer written].
      split; [reflexivity|]. split; [reflexivity|]. split.
      * intros Hyes. exfalso. apply orb_false_iff in Hflush.
        rewrite !Z.leb_gt in Hflush. lia.
      * intros _. split; reflexivity.
Qed.

End LogClaims.

(** An [Info] line under an [Info] filter stays in the buffer; an
    [Error] line is flushed with it. *)
Lemma log_filter_and_flush_witness :
  let ls := Log.mkLogSystem Log.Info EmptyString false [] in
  let ls1 := Log.LogMessage 7 "12:00" ls Log.Debug "dropped" in
  let ls2 := Log.LogMessage 7 "12:00" ls1 Log.Info "kept" in
  let ls3 := Log.LogMessage 7 "12:00" ls2 Log.Error "flushed" in
  ls1 = ls /\
  Log.written ls2 = [] /\ Log.buffer ls2 = Log.format_line 7 "12:00" Log.Info "kept" /\
  Log.buffer ls3 = EmptyString /\
  Log.written ls3 = [(Log.StdErr, (Log.buffer ls2 ++ Log.format_line 7 "12:00" Log.Error "flushed")%string)].
Proof.
  intros ls ls1 ls2 ls3.
  destruct (log_filter_and_flush 7 "12:00" ls Log.Debug "dropped") as (_ & Hdrop & _).
  destruct (log_filter_and_flush 7 "12:00" ls1 Log.Info "kept") as (_ & _ & Hkeep).
  destruct (log_filter_and_flush 7 "12:00" ls2 Log.Error "flushed") as (_ & _ & Hflush).
  assert (H1 : ls1 = ls) by (apply Hdrop; vm_compute; reflexivity).
  split; [exact H1|].
  destruct Hkeep as (_ & _ & _ & Hk); [vm_compute; discriminate|].
  destruct Hk as [Hb Hw]; [vm_compute; intros [H | H]; apply H; reflexivity|].
  destruct Hflush as (_ & _ & Hf & _); [vm_compute; discriminate|].
  destruct Hf as [Hb3 Hw3]; [right; vm_compute; discriminate|].
  split; [exact Hw|]. split; [exact Hb|]. split; [exact Hb3 | exact Hw3].
Defined.

(** ** Claims on the reactor *)

Section ReactorClaims.

Import IOContext Props.

(** The call of [OnIOComplete] a packet is dispatched to. *)
Lemma Run_dispatches_before_quit (before : list completion) (rest : list dequeue) :
  Forall (fun c => completeKey c <> QUIT_HANDLE) before ->
  Run (map Dequeued before ++ Dequeued (mkCompletion 0 QUIT_HANDLE 0) :: rest)
  = (map (fun c => ActOnIOComplete (completeKey c) (bytesTransferred c) (overlapped c)) before,
     Returned 0).
Proof.
  induction 1 as [|c before Hc _ IH]; cbn [map app Run completeKey].
  - now rewrite Z.eqb_refl.
  - apply Z.eqb_neq in Hc. rewrite Hc, IH. reflexivity.
Qed.

Lemma Run_never_dispatches_quit (answers : list dequeue) :
  ~ In QUIT_HANDLE (dispatched_keys (fst (Run answers))).
Proof.
  induction answers as [|[c | e] answers IH]; cbn [Run].
  - intros [].
  - destruct (completeKey c =? QUIT_HANDLE) eqn:E; [intros []|].
    destruct (Run answers) as [acts out]. cbn [fst dispatched_keys flat_map app In] in *.
    apply Z.eqb_neq in E. intros [H | H]; [congruence | now apply IH].
  - cbn. tauto.
Qed.

(** C6.  [Quit] posts a packet with key [QUIT_HANDLE = UINTPTR_MAX] and a
    null [overlapped].  [Run], dequeuing the packets of a port on which
    [Quit] was called, dispatches every packet before the sentinel to the
    endpoint its key names, in order, and returns when it dequeues the
    sentinel, which is not dispatched; nothing after it is dequeued.  In
    no run is [OnIOComplete] called on [QUIT_HANDLE]. *)
Theorem reactor_shutdown (p : port) (later : list dequeue) :
  Forall (fun c => completeKey c <> QUIT_HANDLE) p ->
  QUIT_HANDLE = 2 ^ 64 - 1 /\
  Quit p = p ++ [mkCompletion 0 QUIT_HANDLE 0] /\
  Run (map Dequeued (Quit p) ++ later)
  = (map (fun c => ActOnIOComplete (completeKey c) (bytesTransferred c) (overlapped c)) p,
     Returned 0) /\
  (forall answers, ~ In QUIT_HANDLE (dispatched_keys (fst (Run answers)))).
Proof.
  intros Hp. split; [reflexivity|]. split; [reflexivity|]. split.
  - unfold Quit. rewrite map_app, <- app_assoc. cbn [map app].
    now apply Run_dispatches_before_quit.
  - apply Run_never_dispatches_quit.
Qed.

End ReactorClaims.

(** Two endpoints, at 4096 and 8192; a read completion for each, then
    [Quit], then a packet that is never dequeued. *)
Lemma reactor_shutdown_witness :
  IOContext.Run
    (map IOContext.Dequeued
       (IOContext.Quit [IOContext.mkCompletion 5 4096 1; IOContext.mkCompletion 2 8192 1])
     ++ [IOContext.Dequeued (IOContext.mkCompletion 9 4096 1)])
  = ([IOContext.ActOnIOComplete 4096 5 1; IOContext.ActOnIOComplete 8192 2 1],
     IOContext.Returned 0).
Proof.
  destruct (reactor_shutdown
              [IOContext.mkCompletion 5 4096 1; IOContext.mkCompletion 2 8192 1]
              [IOContext.Dequeued (IOContext.mkCompletion 9 4096 1)]) as (_ & _ & Hrun & _).
  - repeat constructor; vm_compute; discriminate.
  - exact Hrun.
Defined.

(** ** Claims on the serial endpoint *)

Section SerialClaims.

Import Log Serial Props.

(** For a port name that begins with [COM] and has at least four
    characters, [port] becomes the name, in the long form when the fourth
    character is ['8'] or above or the name is longer. *)
Lemma config_port_COM (port portName : string) (c : ascii) :
  starts_with "COM" portName = true -> String.get 3 portName = Some c ->
  config_port port portName
  = if (char_value "8"%char <=? char_value c) || (4 <? Z.of_nat (String.length portName))
    then ("\\.\" ++ portName)%string else portName.
Proof.
  intros Hcom Hget. unfold config_port. rewrite Hcom, Hget.
  assert (Hlen : (4 <=? Z.of_nat (String.length portName)) = true).
  { apply Z.leb_le.
    destruct portName as [|c0 [|c1 [|c2 [|c3 rest]]]]; try discriminate Hget.
    cbn [String.length]. lia. }
  rewrite Hlen. reflexivity.
Qed.

(** For any other port name [port] keeps its value. *)
Lemma config_port_other (port portName : string) :
  starts_with "COM" portName = false -> config_port port portName = port.
Proof. intros H. unfold config_port. now rewrite H. Qed.

(** C7, at the failing input.  [Initialize("LPT1", ...)] on a fresh
    endpoint hands the empty name to [CreateFileA]: the name is only
    stored when it begins with [COM]. *)
Theorem Initialize_non_COM_name (baudRate : Z) (os : InitOS) :
  opened_names (snd (fst (Initialize Serial_new "LPT1" baudRate os))) = [EmptyString] /\
  port (fst (fst (Initialize Serial_new "LPT1" baudRate os))) = EmptyString.
Proof.
  unfold Initialize. cbn [fileHandle Serial_new].
  rewrite config_port_other by reflexivity. cbn [Serial.port].
  destruct (CreateFileA_result os); [destruct (SetCommState_ok os)|]; split; reflexivity.
Qed.

End SerialClaims.

Section ReadCompletion.

Import Log Serial Props.



End ReadCompletion.


Section WriteQueue.

Import Log Serial Props.

Lemma AsyncWrite_submits (s : Serial) (data : list byte) (os : WriteOS) :
  dataToWrite (fst (AsyncWrite s data os)) = dataToWrite s ++ [data] /\
  submitted (snd (AsyncWrite s data os))
  = match dataToWrite s with [] => [data] | _ :: _ => [] end.
Proof.
  unfold AsyncWrite. cbn [dataToWrite]. rewrite length_app. cbn [List.length].
  destruct (dataToWrite s) as [|h rest] eqn:Hq.
  - cbn [List.length Nat.add Z.of_nat Pos.of_succ_nat Z.eqb Pos.eqb app].
    unfold WriteNextBuffer. cbn [dataToWrite hd].
    destruct (negb (WriteFile_ok os) && negb (Write_LastError os =? ERROR_IO_PENDING)).
    + destruct (Write_LastError os =? 0); split; reflexivity.
    + cbn [Z.eqb]. split; reflexivity.
  - replace (Z.of_nat (List.length (h :: rest) + 1) =? 1) with false
      by (symmetry; apply Z.eqb_neq; cbn [List.length]; lia).
    split; reflexivity.
Qed.

Lemma OnIOComplete_write_pops (s : Serial) (bytesTransferred : Z) (ros : ReadOS)
    (wos : WriteOS) (h : list byte) (rest : list (list byte)) :
  dataToWrite s = h :: rest ->
  exists s' acts,
    OnIOComplete s bytesTransferred OverlappedWrite ros wos = Some (s', acts) /\
    dataToWrite s' = rest /\
    submitted acts = match rest with [] => [] | next :: _ => [next] end.
Proof.
  intros Hq. unfold OnIOComplete. rewrite Hq.
  destruct rest as [|next rest'].
  - eexists. eexists. split; [reflexivity|]. split; reflexivity.
  - unfold WriteNextBuffer. cbn [dataToWrite hd].
    destruct (negb (WriteFile_ok wos) && negb (Write_LastError wos =? ERROR_IO_PENDING)).
    + eexists. eexists. split; [reflexivity|]. split; [reflexivity|].
      destruct (Write_LastError wos =? 0); reflexivity.
    + eexists. eexists. split; [reflexivity|]. split; reflexivity.
Qed.

Lemma exec_preserves_invariant (st st' : system) (e : event) (all : list (list byte)) :
  write_invariant st all -> enabled st e -> exec st e = Some st' ->
  write_invariant st' (all ++ written_buffers [e]).
Proof.
  intros [Hwire Hfly] Hen Hexec. destruct e as [data os | bt os]; cbn [exec enabled] in *.
  - destruct (AsyncWrite_submits (endpoint st) data os) as [Hq Hsub].
    destruct (AsyncWrite (endpoint st) data os) as [s' acts]. cbn [fst snd] in *.
    injection Hexec as <-. unfold write_invariant, account.
    cbn [wire endpoint inflight written_buffers flat_map]. rewrite Hen, Hsub, Hq, app_nil_r.
    destruct (dataToWrite (endpoint st)) as [|h rest]; cbn [tl app List.length] in *.
    + rewrite !app_nil_r in *. subst all. split; [reflexivity | lia].
    + rewrite app_nil_r. subst all. split; [now rewrite app_assoc | lia].
  - destruct Hen as [Hacc Hpos].
    destruct (dataToWrite (endpoint st)) as [|h rest] eqn:Hq; [lia|].
    destruct (OnIOComplete_write_pops (endpoint st) bt (mkReadOS true 0 true 0 [] 0) os
                h rest Hq) as (s' & acts & Hdone & Hq' & Hsub).
    rewrite Hdone in Hexec. cbn [bind] in Hexec. injection Hexec as <-.
    unfold write_invariant, account.
    cbn [wire endpoint inflight written_buffers flat_map]. rewrite Hacc, Hsub, Hq', app_nil_r.
    cbn [tl] in Hwire.
    destruct rest as [|next rest']; cbn [tl app List.length].
    + rewrite !app_nil_r in *. split; [exact Hwire | lia].
    + split; [now rewrite <- app_assoc | lia].
Qed.

Lemma steps_preserve_invariant (st st' : system) (evs : list event) (all : list (list byte)) :
  steps st evs st' -> write_invariant st all ->
  write_invariant st' (all ++ written_buffers evs).
Proof.
  intros Hsteps. revert all.
  induction Hsteps as [st | st e st1 evs st2 Hen Hexec _ IH]; intros all Hinv.
  - cbn. now rewrite app_nil_r.
  - change (e :: evs) with ([e] ++ evs). unfold written_buffers in *.
    rewrite flat_map_app, app_assoc. apply IH.
    exact (exec_preserves_invariant _ _ _ _ Hinv Hen Hexec).
Qed.

(** C4.  After any sequence of [AsyncWrite] calls and write completions
    on a fresh endpoint, the buffers handed to the operating system are a
    prefix, in order, of the buffers passed to [AsyncWrite], the queue
    behind its head holding the rest; once the queue has drained, the
    bytes handed to the operating system are the concatenation of all of
    them.  At most one write is in flight, and one is exactly when the
    queue is not empty; every event the operating system can produce is
    handled.  [AsyncWrite] starts a write at once exactly when it finds
    the queue empty, and a write completion pops the head and starts the
    next write exactly when the queue is then not empty. *)
Theorem write_queue_fifo (evs : list event) (st : system) :
  steps system_new evs st ->
  wire st ++ tl (dataToWrite (endpoint st)) = written_buffers evs /\
  (dataToWrite (endpoint st) = [] ->
   List.concat (wire st) = List.concat (written_buffers evs)) /\
  0 <= inflight st <= 1 /\
  (inflight st = 1 <-> dataToWrite (endpoint st) <> []) /\
  (forall e, enabled st e -> exists st', exec st e = Some st') /\
  (forall s data os,
     dataToWrite (fst (AsyncWrite s data os)) = dataToWrite s ++ [data] /\
     submitted (snd (AsyncWrite s data os))
     = match dataToWrite s with [] => [data] | _ :: _ => [] end) /\
  (forall s bytesTransferred ros wos h rest,
     dataToWrite s = h :: rest ->
     exists s' acts,
       OnIOComplete s bytesTransferred OverlappedWrite ros wos = Some (s', acts) /\
       dataToWrite s' = rest /\
       submitted acts = match rest with [] => [] | next :: _ => [next] end).
Proof.
  intros Hsteps.
  assert (Hinit : write_invariant system_new []) by (split; reflexivity).
  destruct (steps_preserve_invariant _ _ _ _ Hsteps Hinit) as [Hwire Hfly].
  cbn [app] in Hwire.
  split; [exact Hwire|]. split.
  { intros Hq. rewrite Hq in Hwire. cbn [tl] in Hwire. rewrite app_nil_r in Hwire.
    now rewrite Hwire. }
  split; [destruct (dataToWrite (endpoint st)); lia|]. split.
  { destruct (dataToWrite (endpoint st)); split; intros H; first [lia | congruence]. }
  split.
  { intros [data os | bt os] Hen; cbn [exec enabled] in *.
    - destruct (AsyncWrite (endpoint st) data os) as [s' acts]. eauto.
    - destruct Hen as [_ Hpos].
      destruct (dataToWrite (endpoint st)) as [|h rest] eqn:Hq; [lia|].
      destruct (OnIOComplete_write_pops (endpoint st) bt (mkReadOS true 0 true 0 [] 0) os
                  h rest Hq) as (s' & acts & -> & _). cbn [bind]. eauto. }
  split; [exact AsyncWrite_submits | exact OnIOComplete_write_pops].
Qed.

End WriteQueue.

(** Scenario S6: [AsyncWrite("AB")], [AsyncWrite("CD")], then the two
    write completions: the wire carries A B C D. *)
Lemma write_queue_fifo_witness :
  let ok := Serial.mkWriteOS true 0 in
  let evs := [Serial.CallAsyncWrite [x41; x42] ok; Serial.CallAsyncWrite [x43; x44] ok;
              Serial.WriteCompletion 2 ok; Serial.WriteCompletion 2 ok] in
  let st := Serial.mkSystem (Serial.mkSerial None EmptyString [] 0 [])
              [[x41; x42]; [x43; x44]] 0 in
  Serial.steps Serial.system_new evs st /\
  List.concat (Serial.wire st) = [x41; x42; x43; x44] /\
  List.concat (Serial.wire st) = List.concat (Serial.written_buffers evs).
Proof.
  intros ok evs st.
  assert (Hsteps : Serial.steps Serial.system_new evs st).
  { eapply Serial.steps_cons; [reflexivity | reflexivity |].
    eapply Serial.steps_cons; [reflexivity | reflexivity |].
    eapply Serial.steps_cons; [split; reflexivity | reflexivity |].
    eapply Serial.steps_cons; [split; reflexivity | reflexivity |].
    apply Serial.steps_nil. }
  split; [exact Hsteps|]. split; [reflexivity|].
  destruct (write_queue_fifo evs st Hsteps) as (_ & Hdrained & _).
  apply Hdrained. reflexivity.
Defined.

(** * Further properties of the code *)

(** ** The frame search and the accumulator *)

Section FramerProperties.

Import Data Props.

Variable format_float : Z -> string.

(** What the search loop returns after [n] positions. *)
Lemma LocateFrameHeader_loop_result (n pos : nat) (s : list byte) :
  match LocateFrameHeader_loop n pos s with
  | Some k =>
      (pos <= k < pos + n)%nat /\ magic_at s (k - pos) /\
      forall p, (p < k - pos)%nat -> ~ magic_at s p
  | None => forall p, (p < n)%nat -> ~ magic_at s p
  end.
Proof.
  revert pos s. induction n as [|n IH]; intros pos s; cbn [LocateFrameHeader_loop].
  - intros p Hp. lia.
  - destruct (memcmp_eq 8 s magic) eqn:E.
    + apply memcmp_magic in E. replace (pos - pos)%nat with 0%nat by lia.
      split; [lia|]. split; [exact E|]. intros p Hp. lia.
    + assert (H0 : ~ magic_at s 0).
      { intros Hm. apply memcmp_magic in Hm. congruence. }
      specialize (IH (S pos) (tl s)).
      destruct (LocateFrameHeader_loop n (S pos) (tl s)) as [k|].
      * destruct IH as (Hk & Hat & Hbefore). split; [lia|].
        replace (k - pos)%nat with (S (k - S pos)) by lia.
        split; [now apply magic_at_tl|].
        intros [|p] Hp; [exact H0|].
        intros Hm. apply magic_at_tl in Hm. apply (Hbefore p); [lia | exact Hm].
      * intros [|p] Hp; [exact H0|].
        intros Hm. apply magic_at_tl in Hm. apply (IH p); [lia | exact Hm].
Qed.

(** X1.  On a buffer of at least [sizeof(FrameHeader)] bytes,
    [LocateFrameHeader] returns the first offset at which the magic
    occurs among the offsets that leave room for a whole header, and
    [nullptr] exactly when the magic occurs at none of them. *)
Theorem locate_frame_header_result (buf : list byte) :
  sizeof_FrameHeader <= size buf ->
  match LocateFrameHeader buf with
  | Some k =>
      magic_at buf k /\ Z.of_nat k + sizeof_FrameHeader <= size buf /\
      forall p, (p < k)%nat -> ~ magic_at buf p
  | None =>
      forall p, Z.of_nat p + sizeof_FrameHeader <= size buf -> ~ magic_at buf p
  end.
Proof.
  intros Hlen. unfold LocateFrameHeader.
  pose proof (LocateFrameHeader_loop_result
                (List.length buf - Z.to_nat sizeof_FrameHeader + 1) 0 buf) as H.
  unfold size, sizeof_FrameHeader in *.
  destruct (LocateFrameHeader_loop _ 0 buf) as [k|].
  - destruct H as (Hk & Hat & Hbefore). rewrite Nat.sub_0_r in *.
    split; [exact Hat|]. split; [lia | exact Hbefore].
  - intros p Hp. apply H. lia.
Qed.

(** The state [OnRead] leaves behind. *)
Lemma OnRead_post (ds ds' : DataSerial) (data : list byte) :
  OnRead format_float ds data = Some ds' ->
  (buffer ds' = [] /\
   (persisted ds' = persisted ds \/ exists ctx, persisted ds' = persisted ds ++ [ctx])) \/
  (persisted ds' = persisted ds /\ buffer ds' = buffer ds ++ data /\
   size (buffer ds') < sizeof_FrameHeader) \/
  (persisted ds' = persisted ds /\
   exists k h, buffer ds' = skipn k (buffer ds ++ data) /\
               firstn 8 (buffer ds') = magic /\
               read_FrameHeader (buffer ds') 0 = Some h /\
               sizeof_FrameHeader <= size (buffer ds') < packetLength h).
Proof.
  unfold OnRead. intros H.
  destruct (size (buffer ds ++ data) <? sizeof_FrameHeader) eqn:Hshort.
  - apply Some_inj in H. subst ds'. right. left. cbn [buffer persisted].
    apply Z.ltb_lt in Hshort. auto.
  - apply Z.ltb_ge in Hshort.
    pose proof (locate_frame_header_fact := LocateFrameHeader_loop_result
                  (List.length (buffer ds ++ data) - Z.to_nat sizeof_FrameHeader + 1) 0
                  (buffer ds ++ data)).
    unfold LocateFrameHeader in H.
    destruct (LocateFrameHeader_loop _ 0 (buffer ds ++ data)) as [k|].
    + destruct locate_frame_header_fact as (Hk & Hat & _). rewrite Nat.sub_0_r in *.
      unbind H.
      destruct (size (skipn k (buffer ds ++ data)) <? packetLength v) eqn:Hwait.
      * apply Some_inj in H. subst ds'. right. right. cbn [buffer persisted].
        split; [reflexivity|]. exists k, v.
        split; [reflexivity|]. split; [exact Hat|]. split; [exact E|].
        apply Z.ltb_lt in Hwait. split; [|exact Hwait].
        now apply read_FrameHeader_Some_size in E.
      * unbind H. apply Some_inj in H. subst ds'. left. cbn [buffer persisted]. eauto.
    + apply Some_inj in H. subst ds'. left. cbn [buffer persisted]. auto.
Qed.

(** X2.  After every [OnRead] the accumulator is empty, or holds fewer
    than [sizeof(FrameHeader)] bytes (all the bytes received so far), or
    begins with the magic and is shorter than the [packetLength] its
    header announces, the bytes before that magic having been erased. *)
Theorem accumulator_invariant (ds ds' : DataSerial) (data : list byte) :
  OnRead format_float ds data = Some ds' ->
  buffer ds' = [] \/
  (buffer ds' = buffer ds ++ data /\ size (buffer ds') < sizeof_FrameHeader) \/
  (exists k h, buffer ds' = skipn k (buffer ds ++ data) /\
               firstn 8 (buffer ds') = magic /\
               read_FrameHeader (buffer ds') 0 = Some h /\
               sizeof_FrameHeader <= size (buffer ds') < packetLength h).
Proof.
  intros H. destruct (OnRead_post _ _ _ H) as [[Hb _] | [(_ & Hb) | (_ & Hb)]]; auto.
Qed.

(** X3.  Over any sequence of [OnRead] calls the records handed to
    [Persistant] are only appended to, by at most one record per call. *)
Theorem persisted_only_grows (ds ds' : DataSerial) (chunks : list (list byte)) :
  OnReads format_float ds chunks = Some ds' ->
  exists records,
    persisted ds' = persisted ds ++ records /\
    (List.length records <= List.length chunks)%nat.
Proof.
  revert ds. induction chunks as [|c cs IH]; intros ds H; cbn [OnReads] in H.
  - apply Some_inj in H. subst ds'. exists []. split; [now rewrite app_nil_r | cbn; lia].
  - unbind H. destruct (IH _ H) as (records & Hrec & Hlen).
    destruct (OnRead_post _ _ _ E) as [[_ [Hp | [ctx Hp]]] | [(Hp & _) | (Hp & _)]];
      rewrite Hp in Hrec.
    + exists records. split; [exact Hrec | cbn; lia].
    + exists (ctx :: records). split; [now rewrite <- app_assoc in Hrec | cbn; lia].
    + exists records. split; [exact Hrec | cbn; lia].
    + exists records. split; [exact Hrec | cbn; lia].
Qed.

(** X4.  When the accumulator has reached [sizeof(FrameHeader)] bytes and
    the magic occurs at no offset that leaves room for a whole header,
    [OnRead] clears the accumulator and writes nothing: a magic that
    begins in the last [sizeof(FrameHeader) - 1] bytes is thrown away with
    the rest. *)
Theorem unsearchable_magic_is_lost (ds : DataSerial) (data : list byte) :
  sizeof_FrameHeader <= size (buffer ds ++ data) ->
  (forall p, Z.of_nat p + sizeof_FrameHeader <= size (buffer ds ++ data) ->
             ~ magic_at (buffer ds ++ data) p) ->
  OnRead format_float ds data = Some (mkDataSerial [] (persisted ds)).
Proof.
  intros Hlen Hfree. unfold OnRead.
  apply Z.ltb_ge in Hlen. rewrite Hlen. apply Z.ltb_ge in Hlen.
  pose proof (locate_frame_header_fact := LocateFrameHeader_loop_result
                (List.length (buffer ds ++ data) - Z.to_nat sizeof_FrameHeader + 1) 0
                (buffer ds ++ data)).
  unfold LocateFrameHeader.
  destruct (LocateFrameHeader_loop _ 0 (buffer ds ++ data)) as [k|]; [|reflexivity].
  destruct locate_frame_header_fact as (Hk & Hat & _). rewrite Nat.sub_0_r in *.
  exfalso. apply (Hfree k); [|exact Hat].
  unfold size, sizeof_FrameHeader in *. lia.
Qed.

End FramerProperties.


(** A frame preceded by four garbage bytes is found at offset 4. *)
Lemma locate_frame_header_result_witness :
  let buf := [xde; xad; xbe; xef] ++ Props.S1 in
  Data.LocateFrameHeader buf = Some 4%nat /\
  Props.magic_at buf 4 /\ forall p, (p < 4)%nat -> ~ Props.magic_at buf p.
Proof.
  intros buf. split; [reflexivity|].
  pose proof (locate_frame_header_result buf) as R.
  change (Data.LocateFrameHeader buf) with (Some 4%nat) in R.
  destruct R as (Hat & _ & Hbefore); [vm_compute; discriminate|].
  split; assumption.
Defined.

(** The first 40 bytes of S1 wait in the accumulator for the rest. *)
Lemma accumulator_invariant_witness :
  let ds' := Data.mkDataSerial (firstn 40 Props.S1) [] in
  Data.buffer ds' = [] \/
  (Data.buffer ds' = Data.buffer Data.DataSerial_new ++ firstn 40 Props.S1 /\
   size (Data.buffer ds') < Data.sizeof_FrameHeader) \/
  (exists k h, Data.buffer ds' = skipn k (Data.buffer Data.DataSerial_new ++ firstn 40 Props.S1) /\
               firstn 8 (Data.buffer ds') = Data.magic /\
               Data.read_FrameHeader (Data.buffer ds') 0 = Some h /\
               Data.sizeof_FrameHeader <= size (Data.buffer ds') < Data.packetLength h).
Proof.
  intros ds'.
  apply (accumulator_invariant Props.bits_format_float Data.DataSerial_new ds'
           (firstn 40 Props.S1)).
  vm_compute. reflexivity.
Defined.

(** Garbage, then S1 twice: two records after three calls. *)
Lemma persisted_only_grows_witness :
  exists records,
    Data.persisted (Data.mkDataSerial [] [Props.S1_json 52; Props.S1_json 52])
    = Data.persisted Data.DataSerial_new ++ records /\
    (List.length records <= List.length [[xde; xad; xbe; xef]; Props.S1; Props.S1])%nat.
Proof.
  apply (persisted_only_grows Props.bits_format_float Data.DataSerial_new
           (Data.mkDataSerial [] [Props.S1_json 52; Props.S1_json 52])
           [[xde; xad; xbe; xef]; Props.S1; Props.S1]).
  vm_compute. reflexivity.
Defined.

(** Four garbage bytes and the first 35 bytes of a frame: the magic at
    offset 4 is not searched for, and everything is cleared. *)
Lemma unsearchable_magic_is_lost_witness :
  let data := firstn 39 ([xde; xad; xbe; xef] ++ Props.S1_exact) in
  Props.magic_at data 4 /\
  Data.OnRead Props.bits_format_float Data.DataSerial_new data
  = Some (Data.mkDataSerial [] (Data.persisted Data.DataSerial_new)).
Proof.
  intros data. split; [reflexivity|].
  apply (unsearchable_magic_is_lost Props.bits_format_float Data.DataSerial_new data).
  - vm_compute. discriminate.
  - intros p Hp.
    assert (Hp' : (p <= 3)%nat).
    { change (size (Data.buffer Data.DataSerial_new ++ data)) with 39 in Hp.
      unfold Data.sizeof_FrameHeader in Hp. lia. }
    destruct p as [|[|[|[|p]]]]; [vm_compute; discriminate.. | lia].
Defined.

(** ** The decoded values *)

Section ValueProperties.

Import Data Props.

Lemma le_value_range (bs : list byte) :
  0 <= le_value bs < 256 ^ Z.of_nat (List.length bs).
Proof.
  induction bs as [|b bs IH]; cbn [le_value List.length].
  - cbn. lia.
  - rewrite Nat2Z.inj_succ, Z.pow_succ_r by lia.
    pose proof (Byte.to_N_bounded b). lia.
Qed.

Lemma read_uint_range_aux (w : Z) (mem : list byte) (off v : Z) :
  read_uint w mem off = Some v -> 0 <= v < 256 ^ w.
Proof.
  unfold read_uint. intros H. unbind H. apply Some_inj in H. subst v.
  apply slice_Some in E. destruct E as (Hoff & Hw & Hbound & ->).
  pose proof (le_value_range (firstn (Z.to_nat w) (skipn (Z.to_nat off) mem))) as R.
  rewrite length_firstn, length_skipn in R. unfold size in Hbound.
  replace (Z.of_nat (Nat.min (Z.to_nat w) (List.length mem - Z.to_nat off))) with w in R by lia.
  exact R.
Qed.



(** X7.  A [Q9Real] prints its sign from bit 0, its integer part from
    bits 1 to 9 and its fraction, unscaled, from bits 10 to 14: the
    integer part printed is below 512, the fraction below 32, and bit 15
    has no effect on the text. *)
Theorem Q9Real_fields (v : Z) :
  0 <= v ->
  format_Q9Real_value v
  = ((if (v mod 2 =? 0)%Z then "" else "-") ++ format_int ((v / 2) mod 512) ++ "."
       ++ format_int ((v / 1024) mod 32))%string /\
  format_Q9Real_value (v + 32768) = format_Q9Real_value v.
Proof.
  intros Hv.
  assert (Hfields : forall u, 0 <= u ->
            format_Q9Real_value u
            = ((if (u mod 2 =? 0)%Z then "" else "-") ++ format_int ((u / 2) mod 512) ++ "."
                 ++ format_int ((u / 1024) mod 32))%string).
  { intros u Hu. unfold format_Q9Real_value.
    change 1 with (Z.ones 1) at 1. change 511 with (Z.ones 9). change 31 with (Z.ones 5).
    rewrite !Z.land_ones, !Z.shiftr_div_pow2 by lia. reflexivity. }
  split; [now apply Hfields|].
  rewrite !Hfields by lia.
  replace ((v + 32768) mod 2) with (v mod 2)
    by (replace (v + 32768) with (v + 16384 * 2) by lia; now rewrite Z.mod_add by lia).
  replace ((v + 32768) / 2) with (v / 2 + 32 * 512)
    by (replace (v + 32768) with (v + 16384 * 2) by lia; rewrite Z.div_add by lia; lia).
  replace ((v + 32768) / 1024) with (v / 1024 + 1 * 32)
    by (replace (v + 32768) with (v + 32 * 1024) by lia; rewrite Z.div_add by lia; lia).
  now rewrite !Z.mod_add by lia.
Qed.

End ValueProperties.


(** The value [0x0003]: sign set, integer part 1, fraction 0. *)
Lemma Q9Real_fields_witness :
  Data.format_Q9Real_value 3
  = ((if (3 mod 2 =? 0)%Z then "" else "-") ++ format_int ((3 / 2) mod 512) ++ "."
       ++ format_int ((3 / 1024) mod 32))%string /\
  Data.format_Q9Real_value (3 + 32768) = Data.format_Q9Real_value 3.
Proof.
  apply (Q9Real_fields 3). lia.
Defined.

(** ** The shape of the rendered frame *)

Section RecordProperties.

Import Data Props.

Variable format_float : Z -> string.

Lemma format_array_appends (count : Z) (item : Z -> option string) (ctx c : string) :
  format_array count item ctx = Some c ->
  exists items,
    elements (Z.to_nat count) 0 item = Some items /\
    c = (ctx ++ String.concat ", " items)%string.
Proof.
  intros H. destruct (format_items_Some_elements _ _ _ _ _ H) as [items Hitems].
  exists items. split; [exact Hitems|].
  rewrite (format_array_elements _ _ _ items Hitems) in H. now apply Some_inj in H.
Qed.

Lemma data_array_appends (mem : list byte) (data count esz : Z)
    (fmt : list byte -> Z -> option string) (ctx c : string) :
  data_array mem data count esz fmt ctx = Some c ->
  exists r, c = (ctx ++ r)%string /\
            forall ctx2, data_array mem data count esz fmt ctx2 = Some (ctx2 ++ r)%string.
Proof.
  unfold data_array. intros H. unbind H. apply Some_inj in H. subst c.
  destruct (format_array_appends _ _ _ _ E) as (items & Hitems & ->).
  exists (q "Data" ++ ": [" ++ String.concat ", " items ++ "]")%string. split.
  - rewrite !string_app_assoc. reflexivity.
  - intros ctx2. rewrite (format_array_elements _ _ _ items Hitems). cbn [bind].
    f_equal. rewrite !string_app_assoc. reflexivity.
Qed.

Lemma HandleTLV_switch_appends (mem : list byte) (t : TLVType) (data length : Z)
    (ctx c : string) :
  HandleTLV_switch format_float mem t data length ctx = Some c ->
  exists r, c = (ctx ++ r)%string /\
            forall ctx2,
              HandleTLV_switch format_float mem t data length ctx2 = Some (ctx2 ++ r)%string.
Proof.
  destruct t; unfold HandleTLV_switch; intros H;
    try (now apply data_array_appends);
    try (apply Some_inj in H; subst c; exists EmptyString;
         split; [now rewrite string_app_nil_r | intros ctx2; now rewrite string_app_nil_r]).
  - unbind H. apply Some_inj in H. subst c.
    exists (q "Data" ++ ": " ++ v)%string. split; [reflexivity|].
    intros ctx2. now rewrite E.
  - unbind H. apply Some_inj in H. subst c.
    exists (q "Data" ++ ": " ++ v)%string. split; [reflexivity|].
    intros ctx2. now rewrite E.
  - unbind H. unbind H. apply Some_inj in H. subst c.
    destruct (format_array_appends _ _ _ _ E0) as (items & Hitems & ->).
    exists (q "Data" ++ ": {" ++ q "Header" ++ ": " ++ v ++ ", " ++ q "Points" ++ ": ["
              ++ String.concat ", " items ++ "]}")%string.
    split.
    + rewrite !string_app_assoc. reflexivity.
    + intros ctx2. rewrite E. cbn [bind].
      rewrite (format_array_elements _ _ _ items Hitems). cbn [bind].
      f_equal. rewrite !string_app_assoc. reflexivity.
Qed.

Lemma HandleTLV_appends (mem : list byte) (tlv : Z) (ctx c : string) (adv : Z) :
  HandleTLV format_float mem tlv ctx = Some (c, adv) ->
  exists r, c = (ctx ++ r)%string /\
            forall ctx2, HandleTLV format_float mem tlv ctx2 = Some ((ctx2 ++ r)%string, adv).
Proof.
  unfold HandleTLV. intros H. unbind H. unbind H. unbind H.
  apply Some_inj in H. injection H as <- <-.
  destruct (HandleTLV_switch_appends _ _ _ _ _ _ E1) as (r & -> & Hany).
  exists (tlv_open (TLVType_of_code v) ++ r ++ "}")%string. split.
  - unfold tlv_open. rewrite !string_app_assoc. reflexivity.
  - intros ctx2. rewrite E, E0. cbn [bind]. rewrite Hany. cbn [bind]. f_equal. f_equal.
    unfold tlv_open. rewrite !string_app_assoc. reflexivity.
Qed.

(** X8.  [HandleTLV] only appends to the text it is given: what it
    appends, and how far it advances, do not depend on that text. *)
Theorem tlv_record_is_appended (mem : list byte) (tlv : Z) (ctx c : string) (adv : Z) :
  HandleTLV format_float mem tlv ctx = Some (c, adv) ->
  exists r,
    HandleTLV format_float mem tlv "" = Some (r, adv) /\
    c = (ctx ++ r)%string /\
    forall ctx2, HandleTLV format_float mem tlv ctx2 = Some ((ctx2 ++ r)%string, adv).
Proof.
  intros H. destruct (HandleTLV_appends _ _ _ _ _ H) as (r & Hc & Hany).
  exists r. split; [exact (Hany EmptyString)|]. split; assumption.
Qed.

Lemma tlv_records_length (n : nat) (mem : list byte) (iter : Z) (records : list string) :
  tlv_records format_float n mem iter = Some records -> List.length records = n.
Proof.
  revert iter records. induction n as [|n IH]; intros iter records H; cbn [tlv_records] in H.
  - apply Some_inj in H. now subst records.
  - unbind H. destruct v as [r adv]. unbind H. apply Some_inj in H. subst records.
    cbn. f_equal. exact (IH _ _ E0).
Qed.

(** The loop over the TLVs appends the records, each preceded by [", "]
    but the first of the frame. *)
Lemma HandleTLVs_records (n : nat) (i : Z) (mem : list byte) (iter : Z) (ctx c : string)
    (iter' : Z) :
  0 <= i ->
  HandleTLVs format_float n i mem iter ctx = Some (c, iter') ->
  exists records,
    tlv_records format_float n mem iter = Some records /\
    c = (ctx ++ (if (i =? 0)%Z then String.concat ", " records
                 else String.concat "" (map (String.append ", ") records)))%string.
Proof.
  revert i iter ctx. induction n as [|n IH]; intros i iter ctx Hi H; cbn [HandleTLVs] in H.
  - apply Some_inj in H. injection H as <- _. exists []. split; [reflexivity|].
    destruct (i =? 0); cbn; now rewrite string_app_nil_r.
  - unbind H. destruct v as [c1 adv].
    destruct (HandleTLV_appends _ _ _ _ _ E) as (r & -> & Hany).
    destruct (IH (i + 1) _ _ ltac:(lia) H) as (rest & Hrest & ->).
    exists (r :: rest). split.
    + cbn [tlv_records]. rewrite (Hany EmptyString). cbn [bind String.append].
      rewrite Hrest. reflexivity.
    + replace (i + 1 =? 0) with false by (symmetry; apply Z.eqb_neq; lia).
      destruct (i =? 0).
      * rewrite concat_sep_cons. now rewrite !string_app_assoc.
      * cbn [map]. rewrite concat_empty_cons. now rewrite !string_app_assoc.
Qed.

(** X9.  A frame that is decoded is rendered as
    [{"Header": H, "TLVs": [r1, ..., rn]}, ] where [H] is the header, [n]
    is its [tlvCount] and [r1 ... rn] are the records of the TLVs met by
    walking from the end of the header, each advancing by [8 + length]. *)
Theorem frame_record_shape (mem : list byte) (ctx : string) :
  HandleFrame format_float mem = Some ctx ->
  exists h records,
    read_FrameHeader mem 0 = Some h /\
    tlv_records format_float (Z.to_nat (tlvCount h)) mem sizeof_FrameHeader = Some records /\
    List.length records = Z.to_nat (tlvCount h) /\
    ctx = ("{" ++ q "Header" ++ ": " ++ format_FrameHeader h ++ ", " ++ q "TLVs" ++ ": "
               ++ json_arr records ++ "}, ")%string.
Proof.
  unfold HandleFrame, HandleFrame_walk. intros H.
  unbind H. destruct v as [c iter]. apply Some_inj in H. subst c.
  unbind E. unbind E. destruct v0 as [c iter']. apply Some_inj in E. injection E as <- _.
  destruct (HandleTLVs_records _ 0 _ _ _ _ _ ltac:(lia) E1) as (records & Hrec & ->).
  exists v, records. split; [exact E0|]. split; [exact Hrec|].
  split; [exact (tlv_records_length _ _ _ _ Hrec)|].
  cbn [Z.eqb]. unfold json_arr. rewrite !string_app_assoc. reflexivity.
Qed.

End RecordProperties.

(** A side-info TLV appended after an opening bracket. *)
Lemma tlv_record_is_appended_witness :
  let mem := [x07; x00; x00; x00;  x06; x00; x00; x00;  x05; x00; x07; x00;  xaa; xbb] in
  let record := (Props.tlv_open Data.DetectedPointsSideInfo ++ q "Data" ++ ": "
                   ++ json_arr [Data.format_struct ["snr"; "noise"] ["5"; "7"]] ++ "}")%string in
  exists r,
    Data.HandleTLV Props.bits_format_float mem 0 "" = Some (r, 14) /\
    ("[" ++ record)%string = ("[" ++ r)%string /\
    forall ctx2, Data.HandleTLV Props.bits_format_float mem 0 ctx2 = Some ((ctx2 ++ r)%string, 14).
Proof.
  intros mem record.
  apply (tlv_record_is_appended Props.bits_format_float mem 0 "[" ("[" ++ record) 14).
  vm_compute. reflexivity.
Defined.

(** S1: one record for its one TLV. *)
Lemma frame_record_shape_witness :
  exists h records,
    Data.read_FrameHeader Props.S1 0 = Some h /\
    Props.tlv_records Props.bits_format_float (Z.to_nat (Data.tlvCount h)) Props.S1
      Data.sizeof_FrameHeader = Some records /\
    List.length records = Z.to_nat (Data.tlvCount h) /\
    Props.S1_json 52
    = ("{" ++ q "Header" ++ ": " ++ Data.format_FrameHeader h ++ ", " ++ q "TLVs" ++ ": "
           ++ json_arr records ++ "}, ")%string.
Proof.
  apply (frame_record_shape Props.bits_format_float Props.S1 (Props.S1_json 52)).
  vm_compute. reflexivity.
Defined.

(** ** TLVs by kind of payload *)

Section PayloadProperties.

Import Data Props.

Variable format_float : Z -> string.

(** X10.  A TLV of a type without a case of its own in [HandleTLV] (an
    unknown code, or one of the six named types that are not decoded) is
    rendered from its eight header bytes alone, as [{"Type": "<name>", }],
    and the traversal skips its declared length; no payload byte is
    read. *)
Theorem undecoded_tlv_reads_header_only (mem : list byte) (tlv code length : Z)
    (ctx : string) :
  undecoded (TLVType_of_code code) = true ->
  read_u32 mem tlv = Some code -> read_u32 mem (tlv + 4) = Some length ->
  HandleTLV format_float mem tlv ctx
  = Some ((ctx ++ tlv_open (TLVType_of_code code) ++ "}")%string, sizeof_TLVHeader + length) /\
  HandleTLV format_float (firstn (Z.to_nat (tlv + sizeof_TLVHeader)) mem) tlv ctx
  = HandleTLV format_float mem tlv ctx.
Proof.
  intros Hun Hcode Hlen.
  assert (Hall : forall m, read_u32 m tlv = Some code -> read_u32 m (tlv + 4) = Some length ->
            HandleTLV format_float m tlv ctx
            = Some ((ctx ++ tlv_open (TLVType_of_code code) ++ "}")%string,
                    sizeof_TLVHeader + length)).
  { intros m Hc Hl. unfold HandleTLV. rewrite Hc, Hl. cbn [bind].
    destruct (TLVType_of_code code); try discriminate Hun;
      cbn [HandleTLV_switch bind]; unfold tlv_open;
      (f_equal; f_equal; [now rewrite !string_app_assoc | lia]). }
  split; [now apply Hall|]. rewrite (Hall mem Hcode Hlen).
  pose proof Hcode as Hc. pose proof Hlen as Hl.
  unfold read_u32, read_uint in Hc, Hl. unbind Hc. unbind Hl.
  apply slice_Some in E, E0. destruct E as (H0 & _ & Hb & _). destruct E0 as (_ & _ & Hb' & _).
  set (k := tlv + sizeof_TLVHeader) in *.
  assert (Hsize : size (firstn (Z.to_nat k) mem) = k).
  { unfold size, k, sizeof_TLVHeader in *. rewrite length_firstn. lia. }
  pose proof (firstn_skipn (Z.to_nat k) mem) as Hsplit.
  assert (Hread : forall off v, 0 <= off -> off + 4 <= k -> read_u32 mem off = Some v ->
                  read_u32 (firstn (Z.to_nat k) mem) off = Some v).
  { intros off val Hoff Hk Hv.
    destruct (read_uint_in_bounds 4 (firstn (Z.to_nat k) mem) off) as [v' Hv']; [lia..|].
    pose proof (read_uint_app 4 _ (skipn (Z.to_nat k) mem) _ _ Hv') as Hv''.
    rewrite Hsplit in Hv''. unfold read_u32 in *. congruence. }
  apply Hall; apply Hread; unfold k, sizeof_TLVHeader; try lia; assumption.
Qed.

(** X11.  The [Statistics] and [TemperatureStatistics] TLVs are decoded
    as one struct of 24 and 28 bytes whatever their [length] field says:
    the decoding is defined exactly when that many bytes follow the TLV
    header in the buffer, while the traversal still advances by
    [8 + length]. *)
Theorem fixed_payload_ignores_length (sz : Z) (mem : list byte) (tlv code length : Z)
    (ctx : string) :
  fixed_payload (TLVType_of_code code) = Some sz ->
  0 <= tlv ->
  read_u32 mem tlv = Some code -> read_u32 mem (tlv + 4) = Some length ->
  (HandleTLV format_float mem tlv ctx <> None <-> tlv + sizeof_TLVHeader + sz <= size mem) /\
  (forall c adv, HandleTLV format_float mem tlv ctx = Some (c, adv) ->
                 adv = sizeof_TLVHeader + length).
Proof.
  intros Hfix Htlv Hcode Hlen. split.
  - unfold HandleTLV. rewrite Hcode, Hlen. cbn [bind].
    unfold sizeof_TLVHeader.
    destruct (TLVType_of_code code); try discriminate Hfix;
      cbn [fixed_payload] in Hfix; apply Some_inj in Hfix; subst sz;
      cbn [HandleTLV_switch]; split.
    + intros Hdef. unfold format_Statistics in Hdef.
      destruct (read_uints 4 6 mem (tlv + 8)) as [fs|] eqn:E; [|now cbn in Hdef].
      apply read_uints_Some_bound in E; [|lia|discriminate].
      unfold sizeof_Statistics. lia.
    + intros Hin. unfold format_Statistics, sizeof_Statistics in *.
      destruct (read_uints_in_bounds 4 6 mem (tlv + 8)) as (fs & -> & _); [lia..|].
      cbn [bind]. discriminate.
    + intros Hdef. unfold format_TemperatureStatistics in Hdef.
      destruct (read_uints 4 2 mem (tlv + 8)) as [ws|] eqn:E; [|now cbn in Hdef].
      cbn [bind] in Hdef.
      destruct (read_uints 2 10 mem (tlv + 8 + 8)) as [hs|] eqn:E0; [|now cbn in Hdef].
      apply read_uints_Some_bound in E0; [|lia|discriminate].
      unfold sizeof_TemperatureStatistics. lia.
    + intros Hin. unfold format_TemperatureStatistics, sizeof_TemperatureStatistics in *.
      destruct (read_uints_in_bounds 4 2 mem (tlv + 8)) as (ws & -> & _); [lia..|].
      cbn [bind].
      destruct (read_uints_in_bounds 2 10 mem (tlv + 8 + 8)) as (hs & -> & _); [lia..|].
      cbn [bind]. discriminate.
  - intros c adv H. unfold HandleTLV in H. rewrite Hcode, Hlen in H. cbn [bind] in H.
    unbind H. apply Some_inj in H. injection H as _ <-. lia.
Qed.

Lemma elements_bytes (mem pre bs post : list byte) (data i : Z) :
  mem = pre ++ bs ++ post -> data + i = size pre ->
  elements (List.length bs) i (fun j => format_uint8 mem (data + j * 1))
  = Some (map (fun b => format_int (Z.of_N (Byte.to_N b))) bs).
Proof.
  revert pre i. induction bs as [|b bs IH]; intros pre i Hmem Hpos; [reflexivity|].
  cbn [List.length elements map].
  assert (Hb : format_uint8 mem (data + i * 1) = Some (format_int (Z.of_N (Byte.to_N b)))).
  { unfold format_uint8, read_u8, read_uint.
    replace (data + i * 1) with (size pre) by lia.
    pose proof (size_nonneg pre).
    rewrite slice_in_bounds;
      [| lia | lia | subst mem; unfold size; rewrite !length_app; cbn [List.length]; lia].
    unfold size. rewrite Nat2Z.id. subst mem.
    rewrite skipn_app, skipn_all, Nat.sub_diag.
    change (firstn (Z.to_nat 1) ([] ++ skipn 0 ((b :: bs) ++ post))) with [b].
    cbn [bind le_value]. do 2 f_equal. lia. }
  rewrite Hb. cbn [bind].
  rewrite (IH (pre ++ [b]) (i + 1)).
  - reflexivity.
  - subst mem. now rewrite <- app_assoc.
  - unfold size in *. rewrite length_app. cbn [List.length]. lia.
Qed.

(** X12.  A [TargetIndex] TLV whose payload lies in the buffer is
    rendered with one element per payload byte, [length] elements in all,
    each the decimal value of its byte, in order. *)
Theorem target_index_elements (mem : list byte) (tlv length : Z) (ctx : string) :
  0 <= tlv ->
  read_u32 mem tlv = Some 1011 -> read_u32 mem (tlv + 4) = Some length ->
  tlv + sizeof_TLVHeader + length <= size mem ->
  exists bs,
    slice mem (tlv + sizeof_TLVHeader) length = Some bs /\
    Z.of_nat (List.length bs) = length /\
    HandleTLV format_float mem tlv ctx
    = Some ((ctx ++ tlv_open TargetIndex ++ q "Data" ++ ": "
                 ++ json_arr (map (fun b => format_int (Z.of_N (Byte.to_N b))) bs)
                 ++ "}")%string,
            sizeof_TLVHeader + length).
Proof.
  intros Htlv Hcode Hlen Hbound.
  assert (Hnn : 0 <= length).
  { apply read_uint_range_aux in Hlen. lia. }
  unfold sizeof_TLVHeader in *.
  rewrite slice_in_bounds by lia.
  set (bs := firstn (Z.to_nat length) (skipn (Z.to_nat (tlv + 8)) mem)).
  assert (Hbs : List.length bs = Z.to_nat length).
  { unfold bs, size in *. rewrite length_firstn, length_skipn. lia. }
  exists bs. split; [reflexivity|]. split; [lia|].
  unfold HandleTLV. rewrite Hcode, Hlen. cbn [bind]. unfold sizeof_TLVHeader.
  change (TLVType_of_code 1011) with TargetIndex. cbn [HandleTLV_switch].
  unfold data_array.
  assert (Hitems : elements (Z.to_nat length) 0 (fun i => format_uint8 mem (tlv + 8 + i * 1))
                   = Some (map (fun b => format_int (Z.of_N (Byte.to_N b))) bs)).
  { rewrite <- Hbs.
    apply (elements_bytes mem (firstn (Z.to_nat (tlv + 8)) mem) bs
             (skipn (Z.to_nat length) (skipn (Z.to_nat (tlv + 8)) mem))).
    - unfold bs. now rewrite firstn_skipn, firstn_skipn.
    - unfold size in *. rewrite length_firstn. lia. }
  rewrite (format_array_elements _ _ _ _ Hitems). cbn [bind].
  f_equal. f_equal; [|lia]. unfold tlv_open, json_arr.
  rewrite !string_app_assoc. reflexivity.
Qed.

End PayloadProperties.

(** Scenario S5 with the payload missing: type 9999, length 4, and only
    the header in the buffer. *)
Lemma undecoded_tlv_reads_header_only_witness :
  let mem := [x0f; x27; x00; x00;  x04; x00; x00; x00] in
  Data.HandleTLV Props.bits_format_float mem 0 ""
  = Some (("" ++ Props.tlv_open (Data.TLVType_of_code 9999) ++ "}")%string,
          Data.sizeof_TLVHeader + 4) /\
  Data.HandleTLV Props.bits_format_float (firstn (Z.to_nat (0 + Data.sizeof_TLVHeader)) mem) 0 ""
  = Data.HandleTLV Props.bits_format_float mem 0 "".
Proof.
  intros mem.
  apply (undecoded_tlv_reads_header_only Props.bits_format_float mem 0 9999 4 "");
    reflexivity.
Defined.

(** A [Statistics] TLV that announces no payload: 24 bytes are read all
    the same, and the traversal advances by 8. *)
Lemma fixed_payload_ignores_length_witness :
  let mem := [x06; x00; x00; x00;  x00; x00; x00; x00] ++ repeat x00 24 in
  (Data.HandleTLV Props.bits_format_float mem 0 "" <> None
   <-> 0 + Data.sizeof_TLVHeader + 24 <= size mem) /\
  (forall c adv, Data.HandleTLV Props.bits_format_float mem 0 "" = Some (c, adv) ->
                 adv = Data.sizeof_TLVHeader + 0).
Proof.
  intros mem.
  apply (fixed_payload_ignores_length Props.bits_format_float 24 mem 0 6 0 "");
    [reflexivity | lia | reflexivity | reflexivity].
Defined.

(** Three target indices: 1, 255, 3. *)
Lemma target_index_elements_witness :
  let mem := [xf3; x03; x00; x00;  x03; x00; x00; x00;  x01; xff; x03] in
  exists bs,
    slice mem (0 + Data.sizeof_TLVHeader) 3 = Some bs /\
    Z.of_nat (List.length bs) = 3 /\
    Data.HandleTLV Props.bits_format_float mem 0 ""
    = Some (("" ++ Props.tlv_open Data.TargetIndex ++ q "Data" ++ ": "
                ++ json_arr (map (fun b => format_int (Z.of_N (Byte.to_N b))) bs)
                ++ "}")%string,
            Data.sizeof_TLVHeader + 3).
Proof.
  intros mem.
  apply (target_index_elements Props.bits_format_float mem 0 3 "");
    [lia | reflexivity | reflexivity | vm_compute; discriminate].
Defined.

(** ** The serial endpoint *)

Section EndpointProperties.

Import Log Serial Props.

(** X13.  [Initialize] on an endpoint that is already initialized changes
    nothing and calls nothing of the operating system: it logs one
    warning and returns success, whatever name and baud rate it is
    given. *)
Theorem Initialize_twice (s : Serial) (h : Z) (portName : string) (baudRate : Z)
    (os : InitOS) :
  fileHandle s = Some h ->
  fst (fst (Initialize s portName baudRate os)) = s /\
  snd (Initialize s portName baudRate os) = 0 /\
  opened_names (snd (fst (Initialize s portName baudRate os))) = [] /\
  exists c, snd (fst (Initialize s portName baudRate os)) = [ActLog c] /\
            call_level c = Warning /\ call_args c = [ArgString (port s)].
Proof.
  intros Hh. unfold Initialize. rewrite Hh. cbn [fst snd].
  split; [reflexivity|]. split; [reflexivity|]. split; [reflexivity|].
  eexists. split; [reflexivity|]. split; reflexivity.
Qed.


End EndpointProperties.

(** An endpoint that holds handle 7. *)
Lemma Initialize_twice_witness :
  let s := Serial.mkSerial (Some 7) "COM4" [] 0 [] in
  let os := Serial.mkInitOS (Some 9) true 0 in
  fst (fst (Serial.Initialize s "COM3" 921600 os)) = s /\
  snd (Serial.Initialize s "COM3" 921600 os) = 0 /\
  Props.opened_names (snd (fst (Serial.Initialize s "COM3" 921600 os))) = [] /\
  exists c, snd (fst (Serial.Initialize s "COM3" 921600 os)) = [Serial.ActLog c] /\
            Log.call_level c = Log.Warning /\
            Log.call_args c = [Log.ArgString (Serial.port s)].
Proof.
  intros s os. apply (Initialize_twice s 7 "COM3" 921600 os). reflexivity.
Defined.


Section TransferProperties.

Import Log Serial Props.

(** X15.  A port name that begins with [COM] and has a fourth character
    is stored as it is when it has exactly four characters and the fourth
    is below ['8'], and with [\\.\] before it otherwise; the value [port]
    had before plays no part. *)
Theorem COM_port_name_form (port : string) (c : ascii) (tail : string) :
  config_port port ("COM" ++ String c tail)
  = if (char_value c <? char_value "8"%char) && (String.length tail =? 0)%nat
    then ("COM" ++ String c tail)%string
    else ("\\.\" ++ "COM" ++ String c tail)%string.
Proof.
  rewrite (config_port_COM port _ c) by reflexivity.
  cbn [String.append String.length].
  destruct (char_value c <? char_value "8"%char) eqn:Hc.
  - apply Z.ltb_lt in Hc. replace (char_value "8" <=? char_value c) with false
      by (symmetry; apply Z.leb_gt; exact Hc).
    destruct tail as [|t tail]; cbn [String.length Nat.eqb orb andb].
    + reflexivity.
    + replace (4 <? Z.of_nat (S (S (S (S (S (String.length tail))))))) with true
        by (symmetry; apply Z.ltb_lt; lia).
      reflexivity.
  - apply Z.ltb_ge in Hc. replace (char_value "8" <=? char_value c) with true
      by (symmetry; apply Z.leb_le; exact Hc).
    reflexivity.
Qed.

(** X16.  [AsyncRead] never asks [ReadFile] for more than the 4096 bytes
    of [readBuffer]: it issues at most one [ReadFile], for
    [min(cbInQue, 4096)] bytes, and none when [ClearCommError] fails. *)
Theorem AsyncRead_size_bounded (s : Serial) (os : ReadOS) :
  0 <= cbInQue os ->
  read_sizes (snd (fst (AsyncRead s os)))
  = (if ClearCommError_ok os then [Z.min (cbInQue os) READ_BUFFER_SIZE] else []) /\
  Forall (fun n => 0 <= n <= READ_BUFFER_SIZE) (read_sizes (snd (fst (AsyncRead s os)))).
Proof.
  intros Hq. unfold AsyncRead, READ_BUFFER_SIZE.
  destruct (ClearCommError_ok os); cbn [negb].
  - assert (Hmin : (if cbInQue os <? 4096 then cbInQue os else 4096)
                   = Z.min (cbInQue os) 4096).
    { destruct (cbInQue os <? 4096) eqn:E;
        [apply Z.ltb_lt in E | apply Z.ltb_ge in E]; lia. }
    rewrite Hmin.
    destruct (negb (ReadFile_ok os)); cbn [fst snd read_sizes flat_map app];
      (split; [reflexivity | constructor; [lia | constructor]]).
  - cbn. split; [reflexivity | constructor].
Qed.

(** X17.  A [WriteFile] that answers [ERROR_IO_PENDING] is a success for
    the write side: a write completion whose next write is pending logs
    nothing.  A [ReadFile] that answers [ERROR_IO_PENDING] is an error for
    the read side: a read completion whose re-armed read is pending logs
    it twice at [Error] level, the handler returning normally with the
    read issued. *)
Theorem pending_io_asymmetry (s : Serial) (bytesTransferred : Z) (ros : ReadOS)
    (wos : WriteOS) (h next : list byte) (rest : list (list byte)) :
  WriteFile_ok wos = false -> Write_LastError wos = ERROR_IO_PENDING ->
  ClearCommError_ok ros = true -> ReadFile_ok ros = false ->
  Read_LastError ros = ERROR_IO_PENDING ->
  (dataToWrite s = h :: next :: rest ->
   exists s' acts,
     OnIOComplete s bytesTransferred OverlappedWrite ros wos = Some (s', acts) /\
     submitted acts = [next] /\ log_calls acts = []) /\
  (exists s' acts,
     OnIOComplete s bytesTransferred OverlappedRead ros wos = Some (s', acts) /\
     List.length (read_sizes acts) = 1%nat /\
     List.length (filter (fun c => level_value (call_level c) =? level_value Error)
                    (log_calls acts)) = 2%nat).
Proof.
  intros Hw Hwe Hc Hr Hre. split.
  - intros Hq. unfold OnIOComplete, WriteNextBuffer. rewrite Hq, Hw, Hwe.
    cbn. eexists. eexists. split; [reflexivity|]. split; reflexivity.
  - unfold OnIOComplete, AsyncRead. rewrite Hc, Hr, Hre.
    cbn [negb fst snd ERROR_IO_PENDING Z.eqb app].
    eexists. eexists. split; [reflexivity|].
    destruct (bytesTransferred =? bytesRead s); destruct (bytesRead s =? 0);
      cbn; split; reflexivity.
Qed.

(** X18.  [AsyncWrite] calls that no completion separates queue their
    buffers in call order, and only the first of them, when it found the
    queue empty, hands a buffer to the operating system: everything else
    waits for a write completion. *)
Theorem AsyncWrites_without_completion (s : Serial) (calls : list (list byte * WriteOS)) :
  dataToWrite (fst (AsyncWrites s calls)) = dataToWrite s ++ map fst calls /\
  submitted (snd (AsyncWrites s calls))
  = match dataToWrite s, calls with
    | [], (data, _) :: _ => [data]
    | _, _ => []
    end.
Proof.
  revert s. induction calls as [|[data os] calls IH]; intros s; cbn [AsyncWrites map].
  - cbn. rewrite app_nil_r. split; [reflexivity | now destruct (dataToWrite s)].
  - destruct (AsyncWrite_submits s data os) as [Hq Hsub].
    destruct (AsyncWrite s data os) as [s1 acts1]. cbn [fst snd] in *.
    destruct (IH s1) as [Hq' Hsub'].
    destruct (AsyncWrites s1 calls) as [s2 acts2]. cbn [fst snd] in *.
    split.
    + rewrite Hq', Hq, <- app_assoc. reflexivity.
    + unfold submitted in *. rewrite flat_map_app, Hsub, Hsub', Hq.
      destruct (dataToWrite s) as [|h rest]; cbn [app]; [|reflexivity].
      destruct calls as [|[d o] calls]; reflexivity.
Qed.

End TransferProperties.

(** 5000 bytes wait in the driver: 4096 are asked for. *)
Lemma AsyncRead_size_bounded_witness :
  let os := Serial.mkReadOS true 5000 true 4096 [] 0 in
  Props.read_sizes (snd (fst (Serial.AsyncRead Serial.Serial_new os))) = [4096] /\
  Forall (fun n => 0 <= n <= Serial.READ_BUFFER_SIZE)
    (Props.read_sizes (snd (fst (Serial.AsyncRead Serial.Serial_new os)))).
Proof.
  intros os. apply (AsyncRead_size_bounded Serial.Serial_new os). cbn. lia.
Defined.

(** Both directions answer [ERROR_IO_PENDING]. *)
Lemma pending_io_asymmetry_witness :
  let s := Serial.mkSerial (Some 7) "COM4" [x41] 1 [[x41]; [x42]] in
  let ros := Serial.mkReadOS true 1 false 0 [] 997 in
  let wos := Serial.mkWriteOS false 997 in
  (exists s' acts,
     Serial.OnIOComplete s 1 Serial.OverlappedWrite ros wos = Some (s', acts) /\
     Serial.submitted acts = [[x42]] /\ Props.log_calls acts = []) /\
  (exists s' acts,
     Serial.OnIOComplete s 1 Serial.OverlappedRead ros wos = Some (s', acts) /\
     List.length (Props.read_sizes acts) = 1%nat /\
     List.length (filter (fun c => Log.level_value (Log.call_level c)
                                   =? Log.level_value Log.Error)
                    (Props.log_calls acts)) = 2%nat).
Proof.
  intros s ros wos.
  destruct (pending_io_asymmetry s 1 ros wos [x41] [x42] [])
    as [Hwrite Hread]; try reflexivity.
  split; [apply Hwrite; reflexivity | exact Hread].
Defined.

(** ** The reactor *)

Section ReactorProperties.

Import IOContext Props.

(** X19.  [Run] calls [OnIOComplete] for the packets it dequeues, in
    dequeue order, up to the first sentinel or failed dequeue and for
    nothing after it: it returns success at the sentinel, logs and
    returns the error at a failure, and is otherwise still waiting. *)
Theorem Run_dispatches_in_order (answers : list dequeue) :
  let served := dispatchable answers in
  let rest := skipn (List.length served) answers in
  answers = map Dequeued served ++ rest /\
  Run answers
  = (map (fun c => ActOnIOComplete (completeKey c) (bytesTransferred c) (overlapped c)) served
     ++ match rest with
        | DequeueFailed errorCode :: _ => [ActLogError errorCode]
        | _ => []
        end,
     match rest with
     | [] => Blocked
     | DequeueFailed errorCode :: _ => Returned errorCode
     | Dequeued _ :: _ => Returned 0
     end) /\
  match rest with
  | Dequeued c :: _ => completeKey c = QUIT_HANDLE
  | _ => True
  end.
Proof.
  induction answers as [|[c | e] answers IH]; cbn zeta in *.
  - repeat split.
  - cbn [dispatchable Run].
    destruct (completeKey c =? QUIT_HANDLE) eqn:E.
    + cbn. apply Z.eqb_eq in E. repeat split. exact E.
    + destruct IH as (Hsplit & Hrun & Hquit).
      cbn [List.length skipn map app]. rewrite Hrun.
      split; [now rewrite <- Hsplit|]. split; [reflexivity | exact Hquit].
  - cbn. repeat split.
Qed.

(** X20.  [Initialize] creates the completion port once: on a reactor
    that has one it only logs a warning.  [Register] calls [OnRegister],
    once, exactly when the handle [CreateIoCompletionPort] returns is the
    reactor's own port, and then returns success; otherwise it logs and
    returns [GetLastError()] without calling [OnRegister].  On a reactor
    that was never initialized the comparison is with [nullptr], so a
    failed association counts as a success. *)
Theorem Register_outcome (c : IOContext) (connection : Z) (handle result : option Z)
    (lastError : Z) (created : option Z) :
  (forall p, ioCompletePort c = Some p ->
     Initialize c created lastError = (c, [ActLogWarning], 0)) /\
  (ioCompletePort c = None ->
     ioCompletePort (fst (fst (Initialize c created lastError))) = created /\
     snd (Initialize c created lastError) = match created with Some _ => 0 | None => lastError end) /\
  (result = ioCompletePort c ->
     Register c connection handle result lastError
     = ([ActAssociate handle (ioCompletePort c) connection; ActOnRegister connection], 0)) /\
  (result <> ioCompletePort c ->
     Register c connection handle result lastError
     = ([ActAssociate handle (ioCompletePort c) connection; ActLogFailure lastError], lastError)) /\
  In (ActOnRegister connection)
    (fst (Register IOContext_new connection handle None lastError)).
Proof.
  assert (Heqb : forall a b : option Z, handle_eqb a b = true <-> a = b).
  { intros [x|] [y|]; cbn; split; intros H; try congruence; try discriminate.
    - apply Z.eqb_eq in H. now subst.
    - injection H as ->. apply Z.eqb_refl. }
  split; [intros p Hp; unfold Initialize; now rewrite Hp|].
  split.
  { intros Hnone. unfold Initialize. rewrite Hnone. destruct created; split; reflexivity. }
  split.
  { intros Heq. unfold Register. apply Heqb in Heq. now rewrite Heq. }
  split.
  { intros Hne. unfold Register.
    destruct (handle_eqb result (ioCompletePort c)) eqn:E; [|reflexivity].
    apply Heqb in E. contradiction. }
  cbn. auto.
Qed.

End ReactorProperties.

(** ** The log over a sequence of calls *)

Section LogProperties.

Import Log Props.

Lemma concat_empty_snoc (l : list string) (x : string) :
  String.concat "" (l ++ [x]) = (String.concat "" l ++ x)%string.
Proof.
  induction l as [|a l IH].
  - cbn. reflexivity.
  - change ((a :: l) ++ [x])%list with (a :: (l ++ [x]))%list.
    rewrite !concat_empty_cons, IH, string_app_assoc. reflexivity.
Qed.

Lemma log_text_step (ls : LogSystem) (op : log_op) :
  log_text (apply_op ls op) = (log_text ls ++ accepted_text (filterLevel ls) [op])%string /\
  filterLevel (apply_op ls op)
  = match op with OpSetLevel level => level | _ => filterLevel ls end.
Proof.
  destruct op as [threadID now severity message | | level];
    cbn [apply_op accepted_text].
  - unfold LogMessage.
    destruct (level_value severity <? level_value (filterLevel ls)).
    + split; [|reflexivity]. cbn [String.append]. now rewrite string_app_nil_r.
    + rewrite string_app_nil_r.
      destruct ((FLUSH_SIZE <=? buffer_size (buffer ls ++ format_line threadID now severity message))
                || (level_value Error <=? level_value severity)).
      * pose proof (appended_line_nonempty (buffer ls) threadID now severity message) as Hne.
        replace (buffer_size (buffer ls ++ format_line threadID now severity message) =? 0)
          with false by (symmetry; apply Z.eqb_neq; lia).
        split; [|reflexivity]. unfold log_text. cbn [written buffer].
        rewrite map_app. cbn [map snd]. rewrite concat_empty_snoc.
        now rewrite string_app_nil_r, string_app_assoc.
      * split; [|reflexivity]. unfold log_text. cbn [written buffer buffer_size String.length
          Z.of_nat Z.eqb]. now rewrite string_app_assoc.
  - split; [|reflexivity]. unfold log_text, Flush. cbn [written buffer].
    rewrite map_app. cbn [map snd]. rewrite concat_empty_snoc.
    now rewrite !string_app_nil_r.
  - split; [|reflexivity]. unfold log_text, SetLevel. cbn [written buffer].
    now rewrite string_app_nil_r.
Qed.

(** X21.  Over any sequence of [LogMessage], [Flush] and [SetLevel]
    calls nothing is lost, repeated or reordered: what has been written,
    followed by what is still in the buffer, is what was there before
    followed by the lines of the messages that passed the filter in force
    when they were logged, in call order. *)
Theorem log_keeps_every_line (ls : LogSystem) (ops : list log_op) :
  log_text (run_ops ls ops) = (log_text ls ++ accepted_text (filterLevel ls) ops)%string.
Proof.
  unfold run_ops. revert ls. induction ops as [|op ops IH]; intros ls; cbn [fold_left].
  - cbn. now rewrite string_app_nil_r.
  - destruct (log_text_step ls op) as [Htext Hfilter].
    rewrite IH, Htext, Hfilter, string_app_assoc. f_equal.
    destruct op; cbn [accepted_text]; now rewrite ?string_app_nil_r, ?string_app_assoc.
Qed.

(** X22.  Between calls the buffer stays below [FLUSH_SIZE]: a buffer of
    fewer than 3840 bytes is still so after any sequence of [LogMessage],
    [Flush] and [SetLevel] calls, whatever the length of the messages. *)
Theorem log_buffer_bounded (ls : LogSystem) (ops : list log_op) :
  buffer_size (buffer ls) < FLUSH_SIZE ->
  buffer_size (buffer (run_ops ls ops)) < FLUSH_SIZE.
Proof.
  unfold run_ops. revert ls. induction ops as [|op ops IH]; intros ls Hb; cbn [fold_left].
  - exact Hb.
  - apply IH. destruct op as [threadID now severity message | | level]; cbn [apply_op].
    + unfold LogMessage.
      destruct (level_value severity <? level_value (filterLevel ls)); [exact Hb|].
      destruct (FLUSH_SIZE <=? buffer_size (buffer ls ++ format_line threadID now severity message))
        eqn:Hfull; cbn [orb].
      * cbn. reflexivity.
      * destruct (level_value Error <=? level_value severity); cbn [buffer];
          [cbn; reflexivity | now apply Z.leb_gt in Hfull].
    + cbn. reflexivity.
    + exact Hb.
Qed.

(** X23.  The templated helpers of [Log.h] test the filter themselves,
    with [filterLevel > level], before they format: they drop exactly the
    messages [LogMessage] would drop, so a helper call has the effect of
    [LogMessage] at the helper's level. *)
Theorem helper_filter_agrees (threadID : Z) (now : string) (ls : LogSystem)
    (level : LogLevel) (message : string) :
  LogFormatted threadID now ls level message = LogMessage threadID now ls level message /\
  ((level_value (filterLevel ls) >? level_value level) = true ->
   LogMessage threadID now ls level message = ls).
Proof.
  unfold LogFormatted, LogMessage. rewrite Z.gtb_ltb.
  destruct (level_value level <? level_value (filterLevel ls)); split;
    first [reflexivity | discriminate].
Qed.

End LogProperties.

(** A message of 4000 characters is flushed at once. *)
Lemma log_buffer_bounded_witness :
  let ls := Log.mkLogSystem Log.Info EmptyString false [] in
  let long := String.concat "" (repeat "0123456789"%string 400) in
  Log.buffer_size
    (Log.buffer (Log.run_ops ls [Log.OpLogMessage 1 "t" Log.Info "short";
                                 Log.OpLogMessage 1 "t" Log.Info long]))
  < Log.FLUSH_SIZE.
Proof.
  intros ls long. apply (log_buffer_bounded ls). reflexivity.
Defined.

(** ** The file writer *)

Section FileWriterProperties.

Import FileWriter Props.

Lemma Open_handles (fileHandle : option Z) (path : string) (os : OpenOS) :
  handle_list fileHandle ++ created_handles [(path, os)]
  = closed_handles (snd (fst (Open fileHandle path os)))
    ++ handle_list (fst (fst (Open fileHandle path os))).
Proof.
  unfold Open, created_handles. cbn [flat_map snd app].
  destruct (wide_count os <=? 0).
  - cbn. now rewrite app_nil_r.
  - destruct (CreateFile_result os) as [h|]; destruct fileHandle as [old|]; reflexivity.
Qed.

(** X24.  Over any sequence of [Open] calls the writer holds at most one
    file and never leaks one: the file it held first and the files
    [CreateFile] opened are, in order, the files it closed followed by the
    one it still holds.  A failed [Open] closes nothing and keeps the file
    in use, and the destructor closes the last file. *)
Theorem file_handles_accounted (fileHandle : option Z) (calls : list (string * OpenOS)) :
  handle_list fileHandle ++ created_handles calls
  = closed_handles (snd (Opens fileHandle calls)) ++ handle_list (fst (Opens fileHandle calls)) /\
  handle_list fileHandle ++ created_handles calls
  = closed_handles (snd (Opens fileHandle calls)
                    ++ snd (Destroy (fst (Opens fileHandle calls)))) /\
  (forall path os,
     (wide_count os <= 0 \/ CreateFile_result os = None) ->
     fst (fst (Open fileHandle path os)) = fileHandle /\
     closed_handles (snd (fst (Open fileHandle path os))) = [] /\
     snd (Open fileHandle path os) = Open_LastError os).
Proof.
  assert (Hopens : forall calls h,
            handle_list h ++ created_handles calls
            = closed_handles (snd (Opens h calls)) ++ handle_list (fst (Opens h calls))).
  { clear. induction calls as [|[path os] calls IH]; intros h; cbn [Opens].
    - cbn. now rewrite app_nil_r.
    - pose proof (Open_handles h path os) as Hone.
      destruct (Open h path os) as [[h1 acts1] code]. cbn [fst snd] in Hone.
      specialize (IH h1). destruct (Opens h1 calls) as [h2 acts2]. cbn [fst snd] in *.
      change ((path, os) :: calls) with ([(path, os)] ++ calls).
      unfold created_handles, closed_handles in *.
      rewrite !flat_map_app, app_assoc, Hone, <- !app_assoc. f_equal. exact IH. }
  split; [apply Hopens|]. split.
  - rewrite Hopens. unfold closed_handles. rewrite flat_map_app. f_equal.
    destruct (fst (Opens fileHandle calls)); reflexivity.
  - intros path os Hfail. unfold Open.
    destruct (wide_count os <=? 0) eqn:E; [repeat split|].
    destruct Hfail as [Hc | Hn]; [apply Z.leb_gt in E; lia|].
    rewrite Hn. repeat split.
Qed.

End FileWriterProperties.
